(** * Kinship: relationship resolution in a family tree

    A shallow embedding of [kinship.py] (classes [Person] and [Family]) and
    the properties of its breadth-first path search and of the selection of
    the kinship term.

    Python objects live in a store keyed by the person's name: [Family]
    creates exactly one [Person] per name, so a reference to a [Person] is
    its name.  Dictionaries are [gmap]s, sets are [gset]s, the work queue is
    a list, exceptions are values of [exn]. *)

From Stdlib Require Import Ascii.
From stdpp Require Import gmap strings list fin_maps.

(** * Exceptions *)

Inductive exn :=
  | KeyError (key : string)
  | AttributeError
  | ValueError.

Inductive result (A : Type) :=
  | Return (a : A)
  | Raise (e : exn).
Arguments Return {A} a.
Arguments Raise {A} e.

(** Sequencing: an exception ends the computation. *)
#[global] Instance result_bind : MBind result := λ A B k r,
  match r with
  | Return a => k a
  | Raise e => Raise e
  end.

(** [for x in l: s = f(s, x)], stopping at the first exception. *)
Fixpoint for_each {S A} (f : S → A → result S) (l : list A) (s : S) : result S :=
  match l with
  | [] => Return s
  | x :: l' => s' ← f s x; for_each f l' s'
  end.

(** [d[k]]: subscript on a dictionary, [KeyError] when the key is absent. *)
Definition subscript {V} (d : gmap string V) (k : string) : result V :=
  match d !! k with
  | Some v => Return v
  | None => Raise (KeyError k)
  end.

(** * class Person *)

Record Person := mkPerson {
  name : string;
  gender : string;
  parents : list string;
  spouse : option string
}.

(** [Person.__init__]. *)
Definition Person_init (name gender : string) : Person :=
  mkPerson name gender [] None.

Definition add_parent (self : Person) (parent : string) : Person :=
  mkPerson (name self) (gender self) (parents self ++ [parent]) (spouse self).

Definition set_spouse (self : Person) (spouse : string) : Person :=
  mkPerson (name self) (gender self) (parents self) (Some spouse).

(** The store of [Person] objects.  A name outside the store stands for an
    object that was never linked to anything; [Family_init] never leaves
    such a reference behind (lemma [Family_init_closed]). *)
Abbreviation Store := (gmap string Person).

Definition deref (heap : Store) (ref : string) : Person :=
  default (Person_init ref "") (heap !! ref).

(** ** Person.connections *)

(** [cdict] and [queue], the two variables of the loop. *)
Abbreviation LoopState := (gmap string string * list string)%type.

(** [if p not in cdict: cdict[p] = code; queue.append(p)] *)
Definition discover (code : string) (st : LoopState) (p : string) : LoopState :=
  match st.1 !! p with
  | None => (<[p := code]> st.1, st.2 ++ [p])
  | Some _ => st
  end.

(** ["S" in personpath] *)
Definition contains_S (personpath : string) : bool :=
  match String.index 0 "S" personpath with
  | Some _ => true
  | None => false
  end.

(** One turn of [while len(queue) > 0]; the state is left alone once the
    queue is empty, which is where the loop exits. *)
Definition loop_body (heap : Store) (st : LoopState) : LoopState :=
  match st.2 with
  | [] => st
  | person :: queue =>
      let personpath := st.1 !!! person in
      let st1 := foldl (discover (personpath +:+ "P")) (st.1, queue)
                       (parents (deref heap person)) in
      match spouse (deref heap person) with
      | Some spouse =>
          if contains_S personpath then st1
          else discover (personpath +:+ "S") st1 spouse
      | None => st1
      end
  end.

(** Every name the store knows about: its keys and all references held by
    its objects. *)
Definition relatives (p : Person) : gset string :=
  list_to_set (parents p) ∪ from_option singleton ∅ (spouse p).

Definition mentioned (heap : Store) : gset string :=
  dom heap ∪ ⋃ (relatives <$> (map_to_list heap).*2).

Definition universe (heap : Store) (self : string) : gset string :=
  {[self]} ∪ mentioned heap.

Definition connections_start (self : string) : LoopState :=
  ({[self := ""]}, [self]).

Definition connections_loop (n : nat) (heap : Store) (self : string) : LoopState :=
  Nat.iter n (loop_body heap) (connections_start self).

(** The loop is run for as many turns as there are names in sight; lemma
    [connections_loop_exits] shows that the queue is empty by then. *)
Definition connections (heap : Store) (self : string) : gmap string string :=
  (connections_loop (size (universe heap self)) heap self).1.

(** ** Person.relation_to *)

(** The table [relationships.relationships]: combined path code, then
    gender, to kinship term. *)
Abbreviation Table := (gmap string (gmap string string)).

(** [min(l)] on strings: the first least element, [ValueError] on []. *)
Definition py_min (l : list string) : result string :=
  match l with
  | [] => Raise ValueError
  | s :: l' => Return (foldl (λ m s', if String.ltb s' m then s' else m) s l')
  end.

Definition combined_path (connection1 connection2 : gmap string string)
    (person : string) : string :=
  (connection1 !!! person) +:+ ":" +:+ (connection2 !!! person).

(** [relation] may be [None] (an absent name at [Family.relation]); calling
    a method on it raises [AttributeError]. *)
Definition relation_to (relationships : Table) (heap : Store)
    (self : string) (relation : option string) : result (option string) :=
  let connection1 := connections heap self in
  relation ← from_option Return (Raise AttributeError) relation;
  let connection2 := connections heap relation in
  let shared := dom connection1 ∩ dom connection2 in
  if decide (shared = ∅) then Return None
  else
    let combined_paths :=
      combined_path connection1 connection2 <$> elements shared in
    lcr_path ← py_min combined_paths;
    let gender := gender (deref heap self) in
    match relationships !! lcr_path with
    | Some entry => term ← subscript entry gender; Return (Some term)
    | None => Return (Some "distant relative")
    end.

(** * class Family *)

Record Family := mkFamily { people : gmap string Person }.

(** The parsed family description, with its three sections. *)
Record Description := mkDescription {
  individuals : list (string * string);
  parent_lists : list (string * list string);
  couples : list (string * string)
}.

Definition create_person (people : Store) (entry : string * string) : Store :=
  <[entry.1 := Person_init entry.1 entry.2]> people.

Definition link_parent (person_name : string) (people : Store)
    (parent_name : string) : result Store :=
  subscript people parent_name;;
  Return (alter (λ person, add_parent person parent_name) person_name people).

Definition link_parents (people : Store) (entry : string * list string)
    : result Store :=
  subscript people entry.1;;
  for_each (link_parent entry.1) entry.2 people.

Definition link_couple (people : Store) (couple : string * string)
    : result Store :=
  subscript people couple.1;;
  subscript people couple.2;;
  Return (alter (λ person2, set_spouse person2 couple.1) couple.2
            (alter (λ person1, set_spouse person1 couple.2) couple.1 people)).

(** [Family.__init__] *)
Definition Family_init (dict1 : Description) : result Family :=
  let people0 := foldl create_person ∅ (individuals dict1) in
  people1 ← for_each link_parents (parent_lists dict1) people0;
  people2 ← for_each link_couple (couples dict1) people1;
  Return (mkFamily people2).

(** [self.people.get(name)]: the reference, or [None]. *)
Definition people_get (self : Family) (name : string) : option string :=
  (λ _, name) <$> people self !! name.

(** [Family.relation] *)
Definition Family_relation (relationships : Table) (self : Family)
    (name1 name2 : string) : result (option string) :=
  let person1 := people_get self name1 in
  let person2 := people_get self name2 in
  match person1 with
  | None => Raise AttributeError
  | Some person1 => relation_to relationships (people self) person1 person2
  end.

(** * main *)

(** The line that [main] prints, from the parsed family description on;
    opening the file and [json.load] come before and are not modelled. *)
Definition main (relationships : Table) (familydata : Description)
    (name1 name2 : string) : result string :=
  family ← Family_init familydata;
  relationship ← Family_relation relationships family name1 name2;
  match relationship with
  | None => Return (name1 +:+ " is not related to " +:+ name2)
  | Some relationship =>
      Return (name1 +:+ " is " +:+ name2 +:+ "'s " +:+ relationship)
  end.

(** * Vocabulary of the properties *)

(** Number of spouse-steps in a path code. *)
Fixpoint count_S (code : string) : nat :=
  match code with
  | EmptyString => 0
  | String c code' => (if Ascii.eqb c "S"%char then 1 else 0) + count_S code'
  end.

(** [path_to heap x code y]: reading [code] from [x], one parent link for
    each "P" and one spouse link for each "S", leads to [y]. *)
Inductive path_to (heap : Store) (x : string) : string → string → Prop :=
  | path_here : path_to heap x "" x
  | path_parent code u p :
      path_to heap x code u →
      p ∈ parents (deref heap u) →
      path_to heap x (code +:+ "P") p
  | path_spouse code u s :
      path_to heap x code u →
      spouse (deref heap u) = Some s →
      path_to heap x (code +:+ "S") s.

(** What one turn of the loop tries to enter into [cdict], in order: the
    parents with [personpath + "P"], then the spouse with
    [personpath + "S"] unless the path already holds an "S". *)
Definition targets (heap : Store) (personpath person : string)
    : list (string * string) :=
  ((λ parent, (personpath +:+ "P", parent)) <$> parents (deref heap person)) ++
  match spouse (deref heap person) with
  | Some spouse =>
      if contains_S personpath then [] else [(personpath +:+ "S", spouse)]
  | None => []
  end.

Definition discover_target (st : LoopState) (t : string * string) : LoopState :=
  discover t.1 st t.2.

(** Bookkeeping of the loop: [done] lists the persons already taken from the
    queue. *)
Definition tracked (heap : Store) (self : string) (done : list string)
    (st : LoopState) : Prop :=
  NoDup (done ++ st.2) ∧
  (∀ k, is_Some (st.1 !! k) ↔ k ∈ done ++ st.2) ∧
  (∀ k, is_Some (st.1 !! k) → k ∈ universe heap self).

(** How [y] got its [code]: it is the start, or it was entered from a
    person [u] of [cdict], one step after [u]'s own code. *)
Definition entered_from (heap : Store) (cd : gmap string string)
    (self y code : string) : Prop :=
  (y = self ∧ code = "") ∨
  ∃ u pre, cd !! u = Some pre ∧
    ((code = pre +:+ "P" ∧ y ∈ parents (deref heap u)) ∨
     (code = pre +:+ "S" ∧ spouse (deref heap u) = Some y ∧ count_S pre = 0)).

(** Invariant of the loop: the start is mapped to the empty code, whoever
    waits in the queue is in [cdict], and every code spells a real path from
    the start with at most one spouse-step, one step longer than the code
    of the person it was entered from. *)
Definition codes_ok (heap : Store) (self : string) (st : LoopState) : Prop :=
  st.1 !! self = Some "" ∧
  (∀ k, k ∈ st.2 → is_Some (st.1 !! k)) ∧
  (∀ y code, st.1 !! y = Some code →
     path_to heap self code y ∧ count_S code ≤ 1 ∧
     entered_from heap st.1 self y code).

(** Breadth-first order: the queue holds persons at depth [d] followed by
    persons at depth [d + 1], and nobody entered so far lies deeper. *)
Definition has_length (cd : gmap string string) (d : nat) (k : string) : Prop :=
  ∃ code, cd !! k = Some code ∧ String.length code = d.

Definition levels (d : nat) (st : LoopState) : Prop :=
  (∃ q1 q2, st.2 = q1 ++ q2 ∧
     Forall (has_length st.1 d) q1 ∧ Forall (has_length st.1 (S d)) q2) ∧
  (∀ k code, st.1 !! k = Some code → String.length code ≤ S d).

(** All parents of [v] are entered, at most one step deeper than [v]. *)
Definition parents_entered (heap : Store) (cd : gmap string string)
    (v : string) : Prop :=
  ∀ code p, cd !! v = Some code → p ∈ parents (deref heap v) →
    ∃ code', cd !! p = Some code' ∧ String.length code' ≤ S (String.length code).

Definition settled (heap : Store) (st : LoopState) : Prop :=
  ∀ v, is_Some (st.1 !! v) → v ∉ st.2 → parents_entered heap st.1 v.

Definition bfs_order (heap : Store) (st : LoopState) : Prop :=
  (∃ d, levels d st) ∧ settled heap st.

(** The persons reachable from both [a] and [b]. *)
Definition shared (heap : Store) (a b : string) : gset string :=
  dom (connections heap a) ∩ dom (connections heap b).

(** [key] is the combined key [pathFromA(person) + ":" + pathFromB(person)]
    of a shared [person]. *)
Definition candidate (heap : Store) (a b key person : string) : Prop :=
  ∃ path1 path2,
    connections heap a !! person = Some path1 ∧
    connections heap b !! person = Some path2 ∧
    key = path1 +:+ ":" +:+ path2.

(** [key] is the least combined key, in the plain order of strings. *)
Definition lcr_key (heap : Store) (a b key : string) : Prop :=
  (∃ person, candidate heap a b key person) ∧
  (∀ key' person, candidate heap a b key' person → String.le key key').

(** The value of [lcr_path] in [relation_to]. *)
Definition lcr_path_of (heap : Store) (a b : string) : result string :=
  py_min (combined_path (connections heap a) (connections heap b)
            <$> elements (shared heap a b)).

(** [person] is a shared individual whose combined key is the selected one. *)
Definition selects (heap : Store) (a b person : string) : Prop :=
  ∃ key, lcr_path_of heap a b = Return key ∧ candidate heap a b key person.

(** A path code is made of steps only. *)
Fixpoint steps_only (code : string) : Prop :=
  match code with
  | EmptyString => True
  | String c code' => (c = "P"%char ∨ c = "S"%char) ∧ steps_only code'
  end.

(** [name] is a key of the individuals section. *)
Definition known (dict1 : Description) (name : string) : Prop :=
  name ∈ (individuals dict1).*1.

(** Some parent list or couple pair names somebody who is not an
    individual. *)
Definition unknown_reference (dict1 : Description) : Prop :=
  (∃ child parent_names parent,
     (child, parent_names) ∈ parent_lists dict1 ∧
     parent ∈ parent_names ∧ ¬ known dict1 parent) ∨
  (∃ name1 name2,
     (name1, name2) ∈ couples dict1 ∧
     (¬ known dict1 name1 ∨ ¬ known dict1 name2)).

(** Every object is stored under its name and refers to stored objects
    only. *)
Definition closed (people : Store) : Prop :=
  ∀ k p, people !! k = Some p →
    name p = k ∧
    (∀ r, r ∈ parents p → is_Some (people !! r)) ∧
    (∀ r, spouse p = Some r → is_Some (people !! r)).

Definition built_from (dict1 : Description) (people : Store) : Prop :=
  (∀ k, is_Some (people !! k) ↔ known dict1 k) ∧ closed people.

Definition unknown_individual (dict1 : Description) (e : exn) : Prop :=
  ∃ name, e = KeyError name ∧ ¬ known dict1 name.

(** The code of [y] is the shortest one: no path with at most one
    spouse-step is shorter. *)
Definition shortest_code (heap : Store) (x y code : string) : Prop :=
  ∀ code', path_to heap x code' y → count_S code' ≤ 1 →
    String.length code ≤ String.length code'.

(** * Sample data *)

(** Modelled from the spec: the table [relationships.relationships] of the
    module [relationships], which is not among the sources.  It maps
    combined path codes such as "P:P" and ":P" to a pair of gender-specific
    terms.  Every result below that does not name [sample_table] holds for
    all tables. *)
Definition sample_table : Table :=
  {[ ":" := {[ "M" := "self"; "F" := "self" ]};
     "P:" := {[ "M" := "son"; "F" := "daughter" ]};
     ":P" := {[ "M" := "father"; "F" := "mother" ]};
     "P:P" := {[ "M" := "brother"; "F" := "sister" ]};
     "S:" := {[ "M" := "husband"; "F" := "wife" ]} ]}.

Definition scenario1 : Description :=
  mkDescription [("Alice", "F"); ("Bob", "M"); ("Carol", "F")]
                [("Carol", ["Alice"; "Bob"])]
                [("Alice", "Bob")].

Definition scenario2 : Description :=
  mkDescription [("A", "M"); ("B", "F")] [] [].

Definition scenario3 : Description :=
  mkDescription [("G", "F"); ("P", "M"); ("C", "F")]
                [("P", ["G"]); ("C", ["P"])]
                [].

Definition scenario4 : Description :=
  mkDescription [("X", "M"); ("Y", "F"); ("Z", "M")]
                [("X", ["Z"]); ("Y", ["Z"])]
                [].

(** A's father C1 is married to B's mother C2. *)
Definition step_siblings : Description :=
  mkDescription [("A", "M"); ("B", "F"); ("C1", "M"); ("C2", "F")]
                [("A", ["C1"]); ("B", ["C2"])]
                [("C1", "C2")].

(** X is married to V, a child of X's great-grandparent Y; Y is married to
    Z, who is also an ancestor of X five generations up.  Parent links are
    acyclic and every spouse link is mutual. *)
Definition in_law_family : Description :=
  mkDescription
    [("X", "M"); ("V", "F"); ("Y", "M"); ("A", "F"); ("B", "M"); ("G", "F");
     ("H", "M"); ("Z", "F")]
    [("X", ["A"]); ("A", ["B"]); ("B", ["Y"; "G"]); ("G", ["H"]);
     ("H", ["Z"]); ("V", ["Y"])]
    [("X", "V"); ("Y", "Z")].

(** C1 is a parent of A and, through Q, C2 and X, also an ancestor of A
    four generations up; C2 is a parent of B. *)
Definition two_lines : Description :=
  mkDescription
    [("A", "F"); ("B", "M"); ("C1", "F"); ("C2", "M"); ("Q", "F"); ("X", "M")]
    [("A", ["C1"; "Q"]); ("Q", ["C2"]); ("B", ["C2"]); ("C2", ["X"]);
     ("X", ["C1"])]
    [].

(** Parent links that go round in a circle. *)
Definition cyclic_family : Description :=
  mkDescription [("A", "M"); ("B", "F")] [("A", ["B"]); ("B", ["A"])] [].

(** A parent list that names somebody who is not an individual. *)
Definition unknown_parent : Description :=
  mkDescription [("A", "M")] [("A", ["B"])] [].

(** An individual whose gender has no term in the table. *)
Definition other_gender : Description :=
  mkDescription [("A", "N")] [] [].

(** The family built from a description ([__init__] completed). *)
Definition family_of (dict1 : Description) : Family :=
  match Family_init dict1 with
  | Return family => family
  | Raise _ => mkFamily ∅
  end.

Definition run (relationships : Table) (dict1 : Description)
    (name1 name2 : string) : result (option string) :=
  family ← Family_init dict1;
  Family_relation relationships family name1 name2.

(** * Vocabulary of the further properties *)

(** Every name used in the parents section (as a key or in a list) and in
    the couples section is an individual. *)
Definition all_known (dict1 : Description) : Prop :=
  Forall (λ entry, known dict1 entry.1 ∧ Forall (known dict1) entry.2)
         (parent_lists dict1) ∧
  Forall (λ couple, known dict1 couple.1 ∧ known dict1 couple.2)
         (couples dict1).

(** The parents listed for [k], in the order of the parents section. *)
Definition parents_listed (entries : list (string * list string))
    (k : string) : list string :=
  concat ((λ entry, if decide (entry.1 = k) then entry.2 else []) <$> entries).

(** The effect of one couple pair on the spouse of [k]. *)
Definition spouse_step (k : string) (spouse : option string)
    (couple : string * string) : option string :=
  if decide (k = couple.2) then Some couple.1
  else if decide (k = couple.1) then Some couple.2
  else spouse.

(** The partner of [k] in the last couple pair that names [k]. *)
Definition spouse_listed (pairs : list (string * string)) (k : string)
    : option string :=
  foldl (spouse_step k) None pairs.

(** The names in the couples section, pair after pair. *)
Definition couple_names (pairs : list (string * string)) : list string :=
  concat ((λ couple, [couple.1; couple.2]) <$> pairs).

(** Invariant of the loop: whoever has left the queue with a code without
    "S" has its spouse in [cdict]. *)
Definition spouses_entered (heap : Store) (st : LoopState) : Prop :=
  ∀ v code s, st.1 !! v = Some code → v ∉ st.2 →
    contains_S code = false → spouse (deref heap v) = Some s →
    is_Some (st.1 !! s).

(** One of the two lines that [main] prints. *)
Definition printed_line (name1 name2 line : string) : Prop :=
  line = name1 +:+ " is not related to " +:+ name2 ∨
  ∃ term, line = name1 +:+ " is " +:+ name2 +:+ "'s " +:+ term.

(** * Vocabulary of the revised results *)

(** [bfs_path heap cd x code y]: a path from [x] to [y] spelled by [code]
    in which every spouse-step leaves a person whose own code in the
    mapping [cd] holds no "S"; parent-steps are free. *)
Inductive bfs_path (heap : Store) (cd : gmap string string) (x : string)
    : string → string → Prop :=
  | bfs_here : bfs_path heap cd x "" x
  | bfs_parent code u p :
      bfs_path heap cd x code u →
      p ∈ parents (deref heap u) →
      bfs_path heap cd x (code +:+ "P") p
  | bfs_spouse code u code_u s :
      bfs_path heap cd x code u →
      cd !! u = Some code_u → count_S code_u = 0 →
      spouse (deref heap u) = Some s →
      bfs_path heap cd x (code +:+ "S") s.

(** Invariant of the loop: whoever has left the queue with a code without
    "S" has its spouse in [cdict], at most one step deeper. *)
Definition spouse_settled (heap : Store) (st : LoopState) : Prop :=
  ∀ v code s, st.1 !! v = Some code → v ∉ st.2 →
    contains_S code = false → spouse (deref heap v) = Some s →
    ∃ code', st.1 !! s = Some code' ∧
             String.length code' ≤ S (String.length code).

(** [person] has the least path code from [a] among the individuals shared
    by [a] and [b], in the plain order of strings. *)
Definition least_path (heap : Store) (a b person : string) : Prop :=
  ∃ path, connections heap a !! person = Some path ∧
    ∀ other path', other ∈ shared heap a b →
      connections heap a !! other = Some path' → String.le path path'.

(** A child whose gender has no term in the table. *)
Definition other_gender_child : Description :=
  mkDescription [("A", "N"); ("B", "F")] [("A", ["B"])] [].

(** * Strings *)

Lemma app_cons c s t : String c s +:+ t = String c (s +:+ t).
Proof. reflexivity. Qed.

Lemma length_append s t :
  String.length (s +:+ t) = String.length s + String.length t.
Proof.
  induction s as [|c s IH]; [reflexivity|].
  rewrite app_cons. simpl. by rewrite IH.
Qed.

Lemma count_S_app s t : count_S (s +:+ t) = count_S s + count_S t.
Proof.
  induction s as [|c s IH]; [reflexivity|].
  rewrite app_cons. simpl. rewrite IH. lia.
Qed.

Lemma contains_S_cons c s :
  contains_S (String c s) = if Ascii.eqb c "S"%char then true else contains_S s.
Proof.
  unfold contains_S.
  change (String.index 0 "S" (String c s)) with
    (if String.prefix "S" (String c s) then Some 0
     else match String.index 0 "S" s with Some n => Some (S n) | None => None end).
  change (String.prefix "S" (String c s)) with
    (match ascii_dec "S"%char c with
     | left _ => String.prefix "" s
     | right _ => false
     end).
  destruct (ascii_dec "S"%char c) as [<-|Hc].
  - by destruct s.
  - destruct (Ascii.eqb_spec c "S"%char) as [->|_]; [done|].
    by destruct (String.index 0 "S" s).
Qed.

Lemma contains_S_count s : contains_S s = false ↔ count_S s = 0.
Proof.
  induction s as [|c s IH]; [done|].
  rewrite contains_S_cons. simpl.
  destruct (Ascii.eqb c "S"%char); [split; [done|lia]|].
  by rewrite IH.
Qed.

(** * The loop of [connections] *)

Section discover.
Implicit Types (st : LoopState) (ts : list (string * string)).

Lemma discover_lookup code st p k :
  (discover code st p).1 !! k =
    match st.1 !! k with
    | Some v => Some v
    | None => if decide (k = p) then Some code else None
    end.
Proof.
  unfold discover. destruct (st.1 !! p) eqn:Hp; simpl.
  - destruct (st.1 !! k) eqn:Hk; [done|]. case_decide; congruence.
  - rewrite lookup_insert. case_decide; subst.
    + rewrite Hp. by rewrite decide_True.
    + destruct (st.1 !! k); [done|]. by rewrite decide_False.
Qed.

Lemma discover_queue code st p :
  (discover code st p).2 =
    st.2 ++ match st.1 !! p with None => [p] | Some _ => [] end.
Proof.
  unfold discover. destruct (st.1 !! p); simpl; [|done].
  by rewrite app_nil_r.
Qed.

(** An entry of [cdict] is never overwritten. *)
Lemma foldl_discover_keeps ts st k v :
  st.1 !! k = Some v → (foldl discover_target st ts).1 !! k = Some v.
Proof.
  revert st. induction ts as [|t ts IH]; intros st Hk; [done|].
  simpl. apply IH. unfold discover_target.
  by rewrite discover_lookup, Hk.
Qed.

(** A new entry comes from one of the targets. *)
Lemma foldl_discover_new ts st k v :
  (foldl discover_target st ts).1 !! k = Some v →
  st.1 !! k = Some v ∨ (st.1 !! k = None ∧ (v, k) ∈ ts).
Proof.
  revert st. induction ts as [|[c p] ts IH]; intros st Hk; [by left|].
  simpl in Hk. apply IH in Hk. unfold discover_target in Hk.
  rewrite !discover_lookup in Hk. simpl in Hk.
  destruct (st.1 !! k) eqn:Hst; [destruct Hk as [?|[? _]]; [by left|done]|].
  right. split; [done|]. case_decide; subst.
  - destruct Hk as [Hk|[? _]]; [|done]. simplify_eq. left.
  - destruct Hk as [?|[_ ?]]; [done|]. by right.
Qed.

(** Every target is in [cdict] afterwards. *)
Lemma foldl_discover_covers ts st c k :
  (c, k) ∈ ts → is_Some ((foldl discover_target st ts).1 !! k).
Proof.
  revert st. induction ts as [|t ts IH]; intros st Hin.
  { by apply elem_of_nil in Hin. }
  apply elem_of_cons in Hin as [<-|Hin]; [|by apply IH].
  simpl. unfold discover_target at 2.
  destruct (st.1 !! k) eqn:Hk.
  - eexists. apply foldl_discover_keeps. simpl.
    by rewrite discover_lookup, Hk.
  - eexists. apply foldl_discover_keeps. simpl.
    by rewrite discover_lookup, Hk, decide_True.
Qed.

(** Exactly the newly entered persons are appended to the queue, once. *)
Lemma foldl_discover_queue ts st :
  ∃ news, (foldl discover_target st ts).2 = st.2 ++ news ∧ NoDup news ∧
    ∀ k, k ∈ news ↔ st.1 !! k = None ∧ ∃ c, (c, k) ∈ ts.
Proof.
  revert st. induction ts as [|[c p] ts IH]; intros st.
  { exists []. rewrite app_nil_r. split; [done|]. split; [constructor|].
    intros k. split; [by intros ?%elem_of_nil|].
    by intros [_ [? ?%elem_of_nil]]. }
  simpl. destruct (IH (discover_target st (c, p))) as (news & Hq & Hnd & Hin).
  unfold discover_target in Hq, Hin. simpl in Hq, Hin.
  rewrite discover_queue in Hq.
  assert (∀ k, (discover c st p).1 !! k = None ↔ st.1 !! k = None ∧ k ≠ p)
    as Hnone.
  { intros k. rewrite discover_lookup. destruct (st.1 !! k); [naive_solver|].
    case_decide; naive_solver. }
  destruct (st.1 !! p) eqn:Hp.
  - exists news. rewrite app_nil_r in Hq. split; [done|]. split; [done|].
    intros k. rewrite Hin, Hnone. split.
    + intros [[? ?] [c' ?]]. split; [done|]. exists c'. by right.
    + intros [Hk [c' [?|?]%elem_of_cons]]; simplify_eq.
      split; [split; [done|congruence]|by exists c'].
  - exists (p :: news). rewrite <-app_assoc in Hq. split; [done|]. split.
    + constructor; [|done]. rewrite Hin, Hnone. naive_solver.
    + intros k. rewrite elem_of_cons, Hin, Hnone. split.
      * intros [->|[[? ?] [c' ?]]]; [split; [done|exists c; left]|].
        split; [done|]. exists c'. by right.
      * intros [Hk [c' [?|?]%elem_of_cons]]; simplify_eq; [by left|].
        destruct (decide (k = p)); [by left|right]. eauto.
Qed.
End discover.

Lemma loop_body_cons heap cd person queue :
  loop_body heap (cd, person :: queue) =
    foldl discover_target (cd, queue) (targets heap (cd !!! person) person).
Proof.
  unfold loop_body, targets. simpl. rewrite foldl_app, foldl_fmap.
  destruct (spouse (deref heap person)); [|done].
  by destruct (contains_S (cd !!! person)).
Qed.

Lemma loop_body_nil heap st : st.2 = [] → loop_body heap st = st.
Proof. unfold loop_body. by intros ->. Qed.

(** ** Termination *)

Lemma relatives_mentioned (heap : Store) k p x :
  heap !! k = Some p → x ∈ relatives p → x ∈ mentioned heap.
Proof.
  intros Hk Hx. unfold mentioned. apply elem_of_union. right.
  apply elem_of_union_list. exists (relatives p). split; [|done].
  apply list_elem_of_fmap. exists p. split; [done|].
  apply list_elem_of_fmap. exists (k, p). split; [done|].
  by apply elem_of_map_to_list.
Qed.

Lemma targets_inv heap personpath person c k :
  (c, k) ∈ targets heap personpath person →
  (c = personpath +:+ "P" ∧ k ∈ parents (deref heap person)) ∨
  (c = personpath +:+ "S" ∧ spouse (deref heap person) = Some k ∧
   contains_S personpath = false).
Proof.
  unfold targets. intros [Hin|Hin]%elem_of_app.
  - apply list_elem_of_fmap in Hin as (parent & ? & ?). simplify_eq. by left.
  - right. destruct (spouse (deref heap person)) as [sp|].
    + destruct (contains_S personpath); [by apply elem_of_nil in Hin|].
      apply list_elem_of_singleton in Hin. by simplify_eq.
    + by apply elem_of_nil in Hin.
Qed.

Lemma targets_mentioned heap personpath person c k :
  (c, k) ∈ targets heap personpath person → k ∈ mentioned heap.
Proof.
  intros Hin. apply targets_inv in Hin. unfold deref in Hin.
  destruct (heap !! person) as [p|] eqn:Hp; simpl in Hin.
  - apply (relatives_mentioned heap person p); [done|]. unfold relatives.
    destruct Hin as [[_ ?]|(_ & Hs & _)]; [set_solver|].
    rewrite Hs. set_solver.
  - destruct Hin as [[_ Hin]|(_ & ? & _)]; [|done].
    by apply elem_of_nil in Hin.
Qed.

Section termination.
Context (heap : Store) (self : string).

Lemma tracked_start : tracked heap self [] (connections_start self).
Proof.
  unfold tracked, connections_start, universe. simpl. split_and!.
  - apply NoDup_singleton.
  - intros k. rewrite list_elem_of_singleton, lookup_singleton_is_Some.
    naive_solver.
  - intros k ?%lookup_singleton_is_Some. set_solver.
Qed.

Lemma tracked_step done cd person queue :
  tracked heap self done (cd, person :: queue) →
  tracked heap self (done ++ [person]) (loop_body heap (cd, person :: queue)).
Proof.
  intros (Hnd & Hdom & Huni). simpl in *. rewrite loop_body_cons.
  set (ts := targets heap (cd !!! person) person).
  destruct (foldl_discover_queue ts (cd, queue)) as (news & Hq & Hnews & Hin).
  simpl in *. unfold tracked. rewrite Hq.
  assert (∀ k, is_Some ((foldl discover_target (cd, queue) ts).1 !! k) ↔
               is_Some (cd !! k) ∨ k ∈ news) as Hdom'.
  { intros k. rewrite Hin. split.
    - intros [v Hv]. apply foldl_discover_new in Hv as [?|[? ?]]; simpl in *;
        [left; eauto|right; eauto].
    - intros [[v Hv]|[_ [c Hc]]].
      + exists v. by apply foldl_discover_keeps.
      + by eapply foldl_discover_covers. }
  split_and!.
  - replace ((done ++ [person]) ++ queue ++ news)
      with ((done ++ person :: queue) ++ news)
      by (by rewrite <-!app_assoc).
    apply NoDup_app. split_and!; [done| |done].
    intros k Hk Hk'. apply Hdom in Hk as [v Hv].
    apply Hin in Hk' as [? _]. congruence.
  - intros k. rewrite Hdom', Hdom. set_solver.
  - intros k [Hk|Hk]%Hdom'; [by apply Huni|].
    apply Hin in Hk as [_ [c Hc]]. unfold universe.
    apply elem_of_union. right. by eapply targets_mentioned.
Qed.

Lemma loop_tracked n :
  ∃ done, tracked heap self done (connections_loop n heap self) ∧
          ((connections_loop n heap self).2 ≠ [] → length done = n).
Proof.
  induction n as [|n (done & Htr & Hlen)].
  { exists []. split; [apply tracked_start|done]. }
  unfold connections_loop in *. simpl.
  destruct (Nat.iter n (loop_body heap) (connections_start self))
    as [cd [|person queue]] eqn:Hst.
  - exists done. by rewrite loop_body_nil.
  - exists (done ++ [person]). split; [by apply tracked_step|].
    intros _. rewrite length_app. simpl. rewrite Hlen; [lia|done].
Qed.

Lemma tracked_bound done st :
  tracked heap self done st →
  length done + length st.2 ≤ size (universe heap self).
Proof.
  intros (Hnd & Hdom & Huni). rewrite <-length_app.
  rewrite <-(size_list_to_set (C := gset string)) by done.
  apply subseteq_size. intros k Hk. apply elem_of_list_to_set in Hk.
  by apply Huni, Hdom.
Qed.

Lemma connections_loop_exits :
  (connections_loop (size (universe heap self)) heap self).2 = [].
Proof.
  destruct (loop_tracked (size (universe heap self))) as (done & Htr & Hlen).
  apply tracked_bound in Htr.
  destruct (connections_loop _ heap self).2 as [|person queue]; [done|].
  rewrite Hlen in Htr by done. simpl in Htr. lia.
Qed.

Lemma connections_loop_stable n k :
  (connections_loop n heap self).2 = [] →
  connections_loop (n + k) heap self = connections_loop n heap self.
Proof.
  intros Hn. induction k as [|k IH].
  - by rewrite Nat.add_0_r.
  - rewrite Nat.add_succ_r. unfold connections_loop in *. simpl.
    rewrite IH. by apply loop_body_nil.
Qed.

Lemma connections_loop_queue_NoDup n :
  NoDup (connections_loop n heap self).2.
Proof.
  destruct (loop_tracked n) as (done & (Hnd & _ & _) & _).
  by apply NoDup_app in Hnd as (_ & _ & ?).
Qed.
End termination.

(** ** Every code is a path from the start *)

Lemma loop_invariant (I : LoopState → Prop) heap self :
  I (connections_start self) →
  (∀ st, I st → I (loop_body heap st)) →
  ∀ n, I (connections_loop n heap self).
Proof.
  intros Hstart Hstep n. unfold connections_loop.
  induction n as [|n IH]; simpl; auto.
Qed.

Section codes.
Context (heap : Store) (self : string).

Lemma codes_ok_start : codes_ok heap self (connections_start self).
Proof.
  unfold codes_ok, connections_start. simpl. split_and!.
  - apply lookup_singleton_eq.
  - intros k ->%list_elem_of_singleton. rewrite lookup_singleton_eq. eauto.
  - intros y code [-> <-]%lookup_singleton_Some. split; [constructor|].
    split; [simpl; lia|by left].
Qed.

Lemma codes_ok_step st :
  codes_ok heap self st → codes_ok heap self (loop_body heap st).
Proof.
  destruct st as [cd [|person queue]]; [by rewrite loop_body_nil|].
  intros (Hself & Hqueue & Hcodes). simpl in *. rewrite loop_body_cons.
  destruct (Hqueue person) as [personpath Hperson]; [left|].
  rewrite (lookup_total_correct _ _ _ Hperson).
  set (ts := targets heap personpath person).
  destruct (foldl_discover_queue ts (cd, queue)) as (news & Hq & _ & Hin).
  simpl in *. split_and!.
  - by apply foldl_discover_keeps.
  - intros k. rewrite Hq. intros [Hk|Hk]%elem_of_app.
    + destruct (Hqueue k) as [v Hv]; [by right|].
      exists v. by apply foldl_discover_keeps.
    + apply Hin in Hk as [_ [c Hc]]. by eapply foldl_discover_covers.
  - assert ((foldl discover_target (cd, queue) ts).1 !! person
            = Some personpath) as Hperson' by by apply foldl_discover_keeps.
    intros y code Hy. apply foldl_discover_new in Hy as [Hy|[_ Hy]].
    { destruct (Hcodes _ _ Hy) as (? & ? & Hfrom). split_and!; [done..|].
      destruct Hfrom as [?|(u & pre & Hu & Hstep)]; [by left|right].
      exists u, pre. split; [|done]. by apply foldl_discover_keeps. }
    destruct (Hcodes _ _ Hperson) as (Hpath & Hcount & _).
    apply targets_inv in Hy as [[-> Hy]|(-> & Hy & HS)].
    + split_and!; [by eapply path_parent| |].
      * rewrite count_S_app. simpl. lia.
      * right. exists person, personpath. auto.
    + apply contains_S_count in HS. split_and!; [by eapply path_spouse| |].
      * rewrite count_S_app, HS. simpl. lia.
      * right. exists person, personpath. auto.
Qed.

Lemma connections_loop_codes_ok n :
  codes_ok heap self (connections_loop n heap self).
Proof.
  apply loop_invariant; [apply codes_ok_start|apply codes_ok_step].
Qed.
End codes.

(** ** Breadth-first order *)

Section bfs_order.
Context (heap : Store) (self : string).

Lemma has_length_keeps ts st d k :
  has_length st.1 d k → has_length (foldl discover_target st ts).1 d k.
Proof.
  intros (code & ? & ?). exists code. split; [|done].
  by apply foldl_discover_keeps.
Qed.

Lemma levels_pop d cd person queue :
  levels d (cd, person :: queue) →
  ∃ d', has_length cd d' person ∧ levels d' (cd, queue).
Proof.
  intros [(q1 & q2 & Hq & H1 & H2) Hmax]. simpl in *.
  destruct q1 as [|person' q1]; simpl in Hq.
  - destruct q2 as [|person' q2]; simplify_eq.
    apply Forall_cons in H2 as [Hp H2].
    exists (S d). split; [done|]. split.
    + exists q2, []. by rewrite app_nil_r.
    + intros k code Hk. apply Hmax in Hk. simpl. lia.
  - simplify_eq. apply Forall_cons in H1 as [Hp H1].
    exists d. split; [done|]. split; [|done]. by exists q1, q2.
Qed.

Lemma levels_discover d st ts :
  levels d st →
  (∀ c k, (c, k) ∈ ts → String.length c = S d) →
  levels d (foldl discover_target st ts).
Proof.
  intros [(q1 & q2 & Hq & H1 & H2) Hmax] Hts.
  destruct (foldl_discover_queue ts st) as (news & Hq' & _ & Hin).
  split.
  - exists q1, (q2 ++ news). rewrite Hq', Hq, <-app_assoc. split; [done|].
    split.
    + eapply Forall_impl; [exact H1|]. intros k. apply has_length_keeps.
    + apply Forall_app. split.
      * eapply Forall_impl; [exact H2|]. intros k. apply has_length_keeps.
      * apply Forall_forall. intros k [Hnone [c Hc]]%Hin.
        destruct (foldl_discover_covers ts st c k Hc) as [code Hcode].
        exists code. split; [done|].
        apply foldl_discover_new in Hcode as [?|[_ ?]]; [congruence|].
        by eapply Hts.
  - intros k code [Hk|[_ Hk]]%foldl_discover_new; [by eapply Hmax|].
    apply Hts in Hk. lia.
Qed.

Lemma targets_length personpath person c k :
  (c, k) ∈ targets heap personpath person →
  String.length c = S (String.length personpath).
Proof.
  intros [[-> _]|(-> & _ & _)]%targets_inv; rewrite length_append; simpl; lia.
Qed.

Lemma bfs_order_start : bfs_order heap (connections_start self).
Proof.
  unfold bfs_order, connections_start. split.
  - exists 0. split; simpl.
    + exists [self], []. split; [done|]. split; [|constructor].
      apply Forall_singleton. exists "". by rewrite lookup_singleton_eq.
    + intros k code [_ <-]%lookup_singleton_Some. simpl. lia.
  - intros v [code Hv]. simpl in *.
    apply lookup_singleton_Some in Hv as [<- _].
    intros []. left.
Qed.

Lemma bfs_order_step st :
  bfs_order heap st → bfs_order heap (loop_body heap st).
Proof.
  destruct st as [cd [|person queue]]; [by rewrite loop_body_nil|].
  intros [[d Hlev] Hset]. rewrite loop_body_cons.
  apply levels_pop in Hlev as (d' & (personpath & Hperson & Hlen) & Hlev).
  rewrite (lookup_total_correct _ _ _ Hperson).
  set (ts := targets heap personpath person).
  assert (levels d' (foldl discover_target (cd, queue) ts)) as Hlev'.
  { apply levels_discover; [done|]. intros c k Hc.
    apply targets_length in Hc. lia. }
  split; [by exists d'|].
  destruct (foldl_discover_queue ts (cd, queue)) as (news & Hq & _ & Hin).
  simpl in *. intros v [code Hv] Hnotin code0 p Hv0 Hp.
  rewrite Hq in Hnotin. simplify_eq.
  destruct (decide (v = person)) as [->|Hne].
  - assert (code = personpath) as ->.
    { eapply (foldl_discover_keeps ts (cd, queue)) in Hperson. congruence. }
    assert ((personpath +:+ "P", p) ∈ ts) as Hts.
    { unfold ts, targets. apply elem_of_app. left.
      apply list_elem_of_fmap. by exists p. }
    destruct (foldl_discover_covers ts (cd, queue) _ _ Hts) as [code' Hcode'].
    exists code'. split; [done|].
    destruct Hlev' as [_ Hmax]. apply Hmax in Hcode'. lia.
  - pose proof Hv as Hv'.
    apply foldl_discover_new in Hv' as [Hold|[Hnone Hnew]]; simpl in *.
    + assert (v ∉ person :: queue) as Hnot.
      { rewrite elem_of_cons. intros [?|?]; [done|].
        apply Hnotin, elem_of_app. by left. }
      pose proof (Hset v (mk_is_Some _ _ Hold) Hnot) as Hpe.
      destruct (Hpe _ _ Hold Hp) as (code' & Hcode' & Hle).
      exists code'. split; [|done].
      by apply (foldl_discover_keeps ts (cd, queue)).
    + exfalso. apply Hnotin, elem_of_app. right. apply Hin. eauto.
Qed.

Lemma connections_loop_bfs_order n :
  bfs_order heap (connections_loop n heap self).
Proof.
  apply loop_invariant; [apply bfs_order_start|apply bfs_order_step].
Qed.
End bfs_order.

(** * Properties of [connections] *)

(** [cdict[person]] is defined for every person taken from the queue. *)
Lemma queue_in_cdict heap self n person :
  person ∈ (connections_loop n heap self).2 →
  is_Some ((connections_loop n heap self).1 !! person).
Proof.
  destruct (connections_loop_codes_ok heap self n) as (_ & Hqueue & _).
  apply Hqueue.
Qed.

Lemma connections_self heap x : connections heap x !! x = Some "".
Proof.
  unfold connections.
  by destruct (connections_loop_codes_ok heap x (size (universe heap x)))
    as (? & _).
Qed.

Lemma connections_path heap self y code :
  connections heap self !! y = Some code →
  path_to heap self code y ∧ count_S code ≤ 1 ∧
  entered_from heap (connections heap self) self y code.
Proof.
  unfold connections.
  destruct (connections_loop_codes_ok heap self (size (universe heap self)))
    as (_ & _ & Hcodes).
  apply Hcodes.
Qed.

Lemma connections_parents_entered heap self v :
  parents_entered heap (connections heap self) v.
Proof.
  unfold connections. intros code p Hv Hp.
  destruct (connections_loop_bfs_order heap self (size (universe heap self)))
    as [_ Hset].
  apply (Hset v); [by eexists| |done..].
  rewrite connections_loop_exits. apply not_elem_of_nil.
Qed.

Lemma count_S_app_0 s t : count_S (s +:+ t) = 0 → count_S s = 0.
Proof. rewrite count_S_app. lia. Qed.

(** Whoever is reached by parent links alone is in the mapping, with a code
    no longer than that chain of parents. *)
Lemma connections_ancestor heap self code y :
  path_to heap self code y → count_S code = 0 →
  ∃ code', connections heap self !! y = Some code' ∧
           String.length code' ≤ String.length code.
Proof.
  induction 1 as [|code u p Hpath IH Hp|code u s Hpath IH Hs]; intros Hcount.
  - exists "". split; [|done]. unfold connections.
    by destruct (connections_loop_codes_ok heap self
                   (size (universe heap self))) as (? & _).
  - destruct IH as (cu & Hu & Hle); [by eapply count_S_app_0|].
    destruct (connections_parents_entered heap self u cu p Hu Hp)
      as (code' & Hcode' & Hle').
    exists code'. split; [done|]. rewrite length_append. simpl. lia.
  - rewrite count_S_app in Hcount. simpl in Hcount. lia.
Qed.

(** * The least combined key *)

Lemma ltb_le s t : String.ltb s t = true → String.le s t.
Proof.
  unfold String.le, String.ltb, String.leb.
  by destruct (String.compare s t).
Qed.

Lemma not_ltb_le s t : String.ltb s t = false → String.le t s.
Proof.
  unfold String.le, String.ltb, String.leb.
  rewrite (String.compare_antisym s t).
  by destruct (String.compare t s).
Qed.

Lemma foldl_min_spec (l : list string) (m0 : string) :
  let m := foldl (λ m s', if String.ltb s' m then s' else m) m0 l in
  (m = m0 ∨ m ∈ l) ∧ String.le m m0 ∧ ∀ s, s ∈ l → String.le m s.
Proof.
  revert m0. induction l as [|s' l IH]; intros m0; simpl.
  { split; [by left|]. split; [done|]. by intros s ?%elem_of_nil. }
  destruct (IH (if String.ltb s' m0 then s' else m0)) as (Hin & Hle & Hall).
  set (m := foldl _ _ l) in *.
  assert (String.le m m0 ∧ String.le m s') as [Hm0 Hs'].
  { destruct (String.ltb s' m0) eqn:Hlt.
    - split; [|done]. etrans; [done|]. by apply ltb_le.
    - split; [done|]. etrans; [done|]. by apply not_ltb_le. }
  split_and!; [|done|].
  - destruct Hin as [Hin|Hin]; [|by right; right].
    destruct (String.ltb s' m0); [right; apply elem_of_cons|]; by left.
  - intros s [->|?]%elem_of_cons; [done|by apply Hall].
Qed.

Lemma py_min_spec (l : list string) :
  l ≠ [] →
  ∃ m, py_min l = Return m ∧ m ∈ l ∧ ∀ s, s ∈ l → String.le m s.
Proof.
  destruct l as [|s l]; [done|]. intros _. simpl.
  destruct (foldl_min_spec l s) as (Hin & Hle & Hall).
  eexists. split; [done|]. split.
  - apply elem_of_cons. destruct Hin; [by left|by right].
  - intros s' [->|?]%elem_of_cons; [done|by apply Hall].
Qed.

(** The order in which the shared persons are visited does not matter. *)
Lemma py_min_perm (l l' : list string) : l ≡ₚ l' → py_min l = py_min l'.
Proof.
  intros Hperm. destruct l as [|s l].
  { by apply Permutation_nil_l in Hperm as ->. }
  destruct (py_min_spec (s :: l)) as (m & -> & Hin & Hle); [done|].
  destruct (py_min_spec l') as (m' & -> & Hin' & Hle').
  { intros ->. by apply Permutation_nil_r in Hperm. }
  f_equal. apply (anti_symm String.le).
  - apply Hle. by rewrite Hperm.
  - apply Hle'. by rewrite <-Hperm.
Qed.

Section keys.
Context (heap : Store) (a b : string).

Lemma shared_lookup person :
  person ∈ shared heap a b ↔
  ∃ path1 path2, connections heap a !! person = Some path1 ∧
                 connections heap b !! person = Some path2.
Proof.
  unfold shared. rewrite elem_of_intersection, !elem_of_dom.
  unfold is_Some. naive_solver.
Qed.

Lemma candidate_combined key person :
  candidate heap a b key person ↔
  person ∈ shared heap a b ∧
  key = combined_path (connections heap a) (connections heap b) person.
Proof.
  unfold candidate, combined_path. rewrite shared_lookup. split.
  - intros (path1 & path2 & H1 & H2 & ->).
    rewrite (lookup_total_correct _ _ _ H1), (lookup_total_correct _ _ _ H2).
    eauto.
  - intros [(path1 & path2 & H1 & H2) ->].
    rewrite (lookup_total_correct _ _ _ H1), (lookup_total_correct _ _ _ H2).
    eauto.
Qed.

Lemma candidate_keys key :
  key ∈ combined_path (connections heap a) (connections heap b)
          <$> elements (shared heap a b) ↔
  ∃ person, candidate heap a b key person.
Proof.
  rewrite list_elem_of_fmap. setoid_rewrite candidate_combined.
  setoid_rewrite elem_of_elements. naive_solver.
Qed.

(** [min] returns the least combined key whenever someone is shared. *)
Lemma lcr_path_of_spec :
  shared heap a b ≠ ∅ →
  ∃ key, lcr_path_of heap a b = Return key ∧ lcr_key heap a b key.
Proof.
  intros Hne. unfold lcr_path_of.
  destruct (py_min_spec (combined_path (connections heap a)
              (connections heap b) <$> elements (shared heap a b)))
    as (key & Hmin & Hin & Hle).
  { intros Hnil%fmap_nil_inv. by apply elements_empty_inv, leibniz_equiv in Hnil. }
  exists key. split; [done|]. split; [by apply candidate_keys|].
  intros key' person Hc. apply Hle, candidate_keys. eauto.
Qed.

Lemma lcr_key_unique key key' :
  lcr_key heap a b key → lcr_key heap a b key' → key = key'.
Proof.
  intros [[p Hp] Hle] [[p' Hp'] Hle'].
  apply (anti_symm String.le); eauto.
Qed.

Lemma lcr_key_shared key : lcr_key heap a b key → shared heap a b ≠ ∅.
Proof.
  intros [[person [Hin _]%candidate_combined] _]. set_solver.
Qed.

Lemma lcr_key_path key :
  lcr_key heap a b key → lcr_path_of heap a b = Return key.
Proof.
  intros Hkey.
  destruct (lcr_path_of_spec (lcr_key_shared _ Hkey)) as (key' & -> & Hkey').
  f_equal. by eapply lcr_key_unique.
Qed.

Lemma relation_to_unfold relationships :
  relation_to relationships heap a (Some b) =
    if decide (shared heap a b = ∅) then Return None
    else
      lcr_path ← lcr_path_of heap a b;
      match relationships !! lcr_path with
      | Some entry =>
          term ← subscript entry (gender (deref heap a)); Return (Some term)
      | None => Return (Some "distant relative")
      end.
Proof. reflexivity. Qed.
End keys.

(** * [Family.__init__] *)

Lemma for_each_inv {S A} (P : S → Prop) (Q : A → Prop) (R : exn → Prop)
    (f : S → A → result S) l s :
  P s →
  (∀ s x, P s → x ∈ l →
     match f s x with Return s' => P s' ∧ Q x | Raise e => R e end) →
  match for_each f l s with
  | Return s' => P s' ∧ Forall Q l
  | Raise e => R e
  end.
Proof.
  revert s. induction l as [|x l IH]; intros s Hs Hf; simpl; [done|].
  pose proof (Hf s x Hs) as Hx. unfold mbind, result_bind.
  destruct (f s x) as [s'|e]; [|apply Hx; left].
  destruct Hx as [Hs' Hx]; [left|].
  specialize (IH s' Hs'). destruct (for_each f l s') as [s''|e'].
  - destruct IH as [? ?]; [|by split; [|constructor]].
    intros ????. apply Hf; [done|by right].
  - apply IH. intros ????. apply Hf; [done|by right].
Qed.

Lemma alter_is_Some {V} (f : V → V) (m : gmap string V) k j :
  is_Some (alter f k m !! j) ↔ is_Some (m !! j).
Proof.
  rewrite lookup_alter. case_decide; subst; [|done]. by rewrite fmap_is_Some.
Qed.

Lemma alter_set_spouse_lookup (people : Store) k0 s k p :
  alter (λ person, set_spouse person s) k0 people !! k = Some p →
  ∃ p0, people !! k = Some p0 ∧ name p = name p0 ∧ parents p = parents p0 ∧
        (spouse p = spouse p0 ∨ spouse p = Some s).
Proof.
  rewrite lookup_alter. case_decide; subst.
  - intros (p0 & ? & ->)%fmap_Some. exists p0. simpl. auto.
  - intros ?. exists p. auto.
Qed.

Section family_init.
Context (dict1 : Description).

Lemma create_people_spec (l : list (string * string)) (people : Store) :
  let people' := foldl create_person people l in
  (∀ k, is_Some (people' !! k) ↔ is_Some (people !! k) ∨ k ∈ l.*1) ∧
  ((∀ k p, people !! k = Some p → ∃ g, p = Person_init k g) →
   ∀ k p, people' !! k = Some p → ∃ g, p = Person_init k g).
Proof.
  revert people. induction l as [|[n g] l IH]; intros people; simpl.
  { split; [|done]. intros k. rewrite elem_of_nil. tauto. }
  destruct (IH (create_person people (n, g))) as [Hdom Hfresh].
  unfold create_person in *. simpl in *. split.
  - intros k. rewrite Hdom, lookup_insert_is_Some, elem_of_cons.
    destruct (decide (n = k)); naive_solver.
  - intros Hold. apply Hfresh. intros k p.
    rewrite lookup_insert_Some. intros [[<- <-]|[_ ?]]; eauto.
Qed.

Lemma built_from_start :
  built_from dict1 (foldl create_person ∅ (individuals dict1)).
Proof.
  destruct (create_people_spec (individuals dict1) ∅) as [Hdom Hfresh].
  split.
  - intros k. rewrite Hdom, lookup_empty. unfold known.
    split; [by intros [[]%is_Some_None|]|by right].
  - intros k p Hk. destruct (Hfresh (λ k p, ltac:(by rewrite lookup_empty))
      k p Hk) as [g ->].
    simpl. split; [done|]. split; [by intros r ?%elem_of_nil|done].
Qed.

Lemma subscript_spec (people : Store) k :
  built_from dict1 people →
  match subscript people k with
  | Return _ => known dict1 k
  | Raise e => unknown_individual dict1 e
  end.
Proof.
  intros [Hdom _]. unfold subscript. destruct (people !! k) eqn:Hk.
  - apply Hdom. by rewrite Hk.
  - exists k. split; [done|]. rewrite <-Hdom, Hk. by intros []%is_Some_None.
Qed.

Lemma link_parent_spec person_name (people : Store) parent_name :
  built_from dict1 people →
  match link_parent person_name people parent_name with
  | Return people' => built_from dict1 people' ∧ known dict1 parent_name
  | Raise e => unknown_individual dict1 e
  end.
Proof.
  intros Hb. pose proof (subscript_spec people parent_name Hb) as Hsub.
  unfold link_parent, mbind, result_bind.
  destruct (subscript people parent_name); [|done].
  split; [|done]. destruct Hb as [Hdom Hcl]. split.
  - intros k. by rewrite alter_is_Some.
  - intros k p. rewrite lookup_alter. case_decide as Hk; subst.
    + intros (p0 & Hp0 & ->)%fmap_Some.
      destruct (Hcl _ _ Hp0) as (? & Hpar & Hsp). simpl. split; [done|].
      split.
      * intros r [Hr| ->%list_elem_of_singleton]%elem_of_app;
          rewrite alter_is_Some; [by apply Hpar|by apply Hdom].
      * intros r Hr. rewrite alter_is_Some. by apply Hsp.
    + intros Hp. destruct (Hcl _ _ Hp) as (? & Hpar & Hsp). split; [done|].
      split; intros r Hr; rewrite alter_is_Some; auto.
Qed.

Lemma link_parents_spec (people : Store) entry :
  built_from dict1 people →
  match link_parents people entry with
  | Return people' =>
      built_from dict1 people' ∧ Forall (known dict1) entry.2
  | Raise e => unknown_individual dict1 e
  end.
Proof.
  intros Hb. pose proof (subscript_spec people entry.1 Hb) as Hsub.
  unfold link_parents, mbind, result_bind.
  destruct (subscript people entry.1); [|done].
  apply for_each_inv; [done|]. intros ????. by apply link_parent_spec.
Qed.

Lemma link_couple_spec (people : Store) couple :
  built_from dict1 people →
  match link_couple people couple with
  | Return people' =>
      built_from dict1 people' ∧ known dict1 couple.1 ∧ known dict1 couple.2
  | Raise e => unknown_individual dict1 e
  end.
Proof.
  intros Hb. pose proof (subscript_spec people couple.1 Hb) as Hsub1.
  pose proof (subscript_spec people couple.2 Hb) as Hsub2.
  unfold link_couple, mbind, result_bind.
  destruct (subscript people couple.1); [|done].
  destruct (subscript people couple.2); [|done].
  split; [|done]. destruct Hb as [Hdom Hcl]. split.
  - intros k. by rewrite !alter_is_Some.
  - intros k p Hp.
    assert (∃ p0, people !! k = Some p0 ∧ name p = name p0 ∧
              parents p = parents p0 ∧
              (spouse p = spouse p0 ∨ spouse p = Some couple.1 ∨
               spouse p = Some couple.2)) as (p0 & Hp0 & Hn & Hpar & Hsp).
    { apply alter_set_spouse_lookup in Hp as (p1 & Hp & -> & -> & Hsp2).
      apply alter_set_spouse_lookup in Hp as (p0 & Hp & -> & -> & Hsp1).
      exists p0. split_and!; [done..|].
      destruct Hsp2 as [->|?]; [|by auto]. destruct Hsp1; auto. }
    destruct (Hcl _ _ Hp0) as (? & Hpar0 & Hsp0). split; [congruence|].
    split.
    + intros r. rewrite !alter_is_Some, Hpar. apply Hpar0.
    + intros r Hr. rewrite !alter_is_Some.
      destruct Hsp as [Hsp|[Hsp|Hsp]]; rewrite Hsp in Hr.
      * by apply Hsp0.
      * simplify_eq. by apply Hdom.
      * simplify_eq. by apply Hdom.
Qed.

(** What [Family.__init__] does, in one statement: either every reference
    was resolved and the store is closed, or a [KeyError] names somebody
    who is not an individual. *)
Lemma Family_init_spec :
  match Family_init dict1 with
  | Return family =>
      built_from dict1 (people family) ∧
      Forall (λ entry, Forall (known dict1) entry.2) (parent_lists dict1) ∧
      Forall (λ couple, known dict1 couple.1 ∧ known dict1 couple.2)
             (couples dict1)
  | Raise e => unknown_individual dict1 e
  end.
Proof.
  unfold Family_init, mbind, result_bind.
  pose proof (for_each_inv (built_from dict1)
    (λ entry, Forall (known dict1) entry.2) (unknown_individual dict1)
    link_parents (parent_lists dict1) _ built_from_start
    (λ s x Hs _, link_parents_spec s x Hs)) as H1.
  destruct (for_each link_parents _ _) as [people1|e]; [|done].
  destruct H1 as [Hb1 Hparents].
  pose proof (for_each_inv (built_from dict1)
    (λ couple, known dict1 couple.1 ∧ known dict1 couple.2)
    (unknown_individual dict1)
    link_couple (couples dict1) _ Hb1
    (λ s x Hs _, link_couple_spec s x Hs)) as H2.
  destruct (for_each link_couple _ _) as [people2|e]; [|done].
  destruct H2 as [Hb2 Hcouples]. done.
Qed.

Lemma Family_init_closed family :
  Family_init dict1 = Return family → closed (people family).
Proof.
  intros Hinit. pose proof Family_init_spec as H. rewrite Hinit in H.
  by destruct H as [[_ ?] _].
Qed.
End family_init.

(** * The scenarios of the specification *)

Example scenario1_mother :
  run sample_table scenario1 "Alice" "Carol" = Return (Some "mother").
Proof. vm_compute. reflexivity. Qed.

Example scenario1_daughter :
  run sample_table scenario1 "Carol" "Alice" = Return (Some "daughter").
Proof. vm_compute. reflexivity. Qed.

Example scenario2_not_related :
  run sample_table scenario2 "A" "B" = Return None.
Proof. vm_compute. reflexivity. Qed.

Example scenario3_key :
  lcr_path_of (people (family_of scenario3)) "G" "C" = Return ":PP".
Proof. vm_compute. reflexivity. Qed.

Example scenario3_fallback :
  run sample_table scenario3 "G" "C" = Return (Some "distant relative").
Proof. vm_compute. reflexivity. Qed.

Example scenario4_siblings :
  lcr_path_of (people (family_of scenario4)) "X" "Y" = Return "P:P" ∧
  run sample_table scenario4 "X" "Y" = Return (Some "brother").
Proof. split; vm_compute; reflexivity. Qed.

Example cyclic_family_connections :
  connections (people (family_of cyclic_family)) "A" = {[ "A" := ""; "B" := "P" ]}.
Proof. vm_compute. reflexivity. Qed.

(** * Main results on [connections] *)

(** C9: [connections] terminates on every store, whatever its parent links
    (cycles included): within as many turns as there are names in sight the
    queue is empty, further turns change nothing, and the mapping reached is
    the result.  At every moment each entered person has been taken from the
    queue or waits in it exactly once. *)
Theorem connections_terminates heap self :
  ∃ n, n ≤ size (universe heap self) ∧
       (connections_loop n heap self).2 = [] ∧
       (connections_loop n heap self).1 = connections heap self ∧
       (∀ k, connections_loop (n + k) heap self = connections_loop n heap self) ∧
       (∀ m, ∃ done, tracked heap self done (connections_loop m heap self)).
Proof.
  exists (size (universe heap self)). split_and!; [done| |done| |].
  - apply connections_loop_exits.
  - intros k. apply connections_loop_stable, connections_loop_exits.
  - intros m. destruct (loop_tracked heap self m) as (done & ? & _). eauto.
Qed.

(** C3: no path code returned by [connections] holds more than one
    spouse-step. *)
Theorem connections_one_spouse_step heap self y code :
  connections heap self !! y = Some code → count_S code ≤ 1.
Proof. intros Hy. by apply connections_path in Hy as (_ & ? & _). Qed.

Lemma connections_one_spouse_step_witness :
  connections (people (family_of step_siblings)) "A" !! "C2" = Some "PS" ∧
  count_S "PS" ≤ 1.
Proof.
  split; [vm_compute; reflexivity|].
  apply (connections_one_spouse_step (people (family_of step_siblings))
           "A" "C2" "PS").
  vm_compute. reflexivity.
Defined.

(** A path that holds a spouse-step is not extended through a spouse link. *)
Lemma loop_body_spouse_once heap cd person queue :
  contains_S (cd !!! person) = true →
  loop_body heap (cd, person :: queue) =
    foldl (discover ((cd !!! person) +:+ "P")) (cd, queue)
          (parents (deref heap person)).
Proof.
  intros HS. unfold loop_body. simpl. rewrite HS.
  by destruct (spouse (deref heap person)).
Qed.

(** C2, as stated, fails: Z is entered with the code "PPPPP" although
    "PPPS" leads to Z as well.  Y is first reached through X's spouse
    ("SP"), so the spouse link from Y to Z is not taken. *)
Lemma connections_not_shortest :
  connections (people (family_of in_law_family)) "X" !! "Z" = Some "PPPPP" ∧
  ¬ shortest_code (people (family_of in_law_family)) "X" "Z" "PPPPP".
Proof.
  split; [vm_compute; reflexivity|].
  intros Hshort. specialize (Hshort "PPPS").
  assert (String.length "PPPPP" ≤ String.length "PPPS") as Hle.
  2: { simpl in Hle. lia. }
  apply Hshort; [|simpl; lia].
  apply (path_spouse _ _ "PPP" "Y"); [|vm_compute; reflexivity].
  apply (path_parent _ _ "PP" "B"); [|vm_compute; set_solver].
  apply (path_parent _ _ "P" "A"); [|vm_compute; set_solver].
  apply (path_parent _ _ "" "X"); [|vm_compute; set_solver].
  constructor.
Qed.

Section spouse_settled.
Context (heap : Store) (self : string).

Lemma spouse_settled_start : spouse_settled heap (connections_start self).
Proof.
  intros v code s Hv Hnotin. unfold connections_start in *. simpl in *.
  apply lookup_singleton_Some in Hv as [<- _]. destruct Hnotin. left.
Qed.

Lemma spouse_settled_step st :
  bfs_order heap st →
  spouse_settled heap st → spouse_settled heap (loop_body heap st).
Proof.
  destruct st as [cd [|person queue]]; [by rewrite loop_body_nil|].
  intros [[d Hlev] _] Hinv. rewrite loop_body_cons.
  apply levels_pop in Hlev as (d' & (personpath & Hperson & Hlen) & Hlev).
  rewrite (lookup_total_correct _ _ _ Hperson).
  set (ts := targets heap personpath person).
  assert (levels d' (foldl discover_target (cd, queue) ts)) as [_ Hmax].
  { apply levels_discover; [done|]. intros c k Hc.
    apply (targets_length heap) in Hc. lia. }
  destruct (foldl_discover_queue ts (cd, queue)) as (news & Hq & _ & Hin).
  simpl in *. intros v code s Hv Hnotin HS Hs. rewrite Hq in Hnotin.
  destruct (decide (v = person)) as [->|Hne].
  - assert (code = personpath) as ->.
    { eapply (foldl_discover_keeps ts (cd, queue)) in Hperson. congruence. }
    assert ((personpath +:+ "S", s) ∈ ts) as Hts.
    { unfold ts, targets. apply elem_of_app. right. rewrite Hs, HS. left. }
    destruct (foldl_discover_covers ts (cd, queue) _ _ Hts) as [code' Hcode'].
    exists code'. split; [done|]. apply Hmax in Hcode'. lia.
  - pose proof Hv as Hv'.
    apply foldl_discover_new in Hv' as [Hold|[Hnone Hnew]]; simpl in *.
    + destruct (Hinv v code s) as (code' & Hcode' & Hle); simpl; [done| |done..|].
      { rewrite elem_of_cons. intros [?|?]; [done|].
        apply Hnotin, elem_of_app. by left. }
      exists code'. split; [|done].
      by apply (foldl_discover_keeps ts (cd, queue)).
    + exfalso. apply Hnotin, elem_of_app. right. apply Hin. eauto.
Qed.

Lemma connections_loop_spouse_settled n :
  spouse_settled heap (connections_loop n heap self).
Proof.
  induction n as [|n IH]; [apply spouse_settled_start|].
  unfold connections_loop in *. simpl.
  apply spouse_settled_step; [|done]. apply connections_loop_bfs_order.
Qed.
End spouse_settled.

(** The spouse of whoever has a code without "S" is in the mapping, at most
    one step deeper. *)
Lemma connections_spouse_entered heap x v code s :
  connections heap x !! v = Some code → count_S code = 0 →
  spouse (deref heap v) = Some s →
  ∃ code', connections heap x !! s = Some code' ∧
           String.length code' ≤ S (String.length code).
Proof.
  intros Hv Hcount%contains_S_count Hs. unfold connections in *.
  apply (connections_loop_spouse_settled heap x _ v code s); [done| |done..].
  rewrite connections_loop_exits. apply not_elem_of_nil.
Qed.

(** Every code of the mapping is such a path. *)
Lemma connections_bfs_path heap x y code :
  connections heap x !! y = Some code →
  bfs_path heap (connections heap x) x code y.
Proof.
  remember (String.length code) as n eqn:Hn. revert y code Hn.
  induction n as [n IH] using lt_wf_ind. intros y code -> Hy.
  destruct (connections_path _ _ _ _ Hy) as (_ & _ & Hfrom).
  destruct Hfrom as [[-> ->]|(u & pre & Hu & [[-> Hp]|(-> & Hs & Hcount)])].
  - constructor.
  - apply (bfs_parent _ _ _ pre u); [|done].
    apply (IH (String.length pre)); [|done..].
    rewrite length_append. simpl. lia.
  - apply (bfs_spouse _ _ _ pre u pre); [|done..].
    apply (IH (String.length pre)); [|done..].
    rewrite length_append. simpl. lia.
Qed.

(** Whoever such a path leads to is in the mapping, with a code that is no
    longer. *)
Lemma bfs_path_entered heap x code y :
  bfs_path heap (connections heap x) x code y →
  ∃ code', connections heap x !! y = Some code' ∧
           String.length code' ≤ String.length code.
Proof.
  induction 1 as [|code u p _ IH Hp|code u cu s _ IH Hu Hcount Hs].
  - exists "". split; [apply connections_self|done].
  - destruct IH as (cu & Hu & Hle).
    destruct (connections_parents_entered heap x u cu p Hu Hp)
      as (code' & Hcode' & Hle').
    exists code'. split; [done|]. rewrite length_append. simpl. lia.
  - destruct IH as (cu' & Hu' & Hle). simplify_eq.
    destruct (connections_spouse_entered heap x u cu s Hu Hcount Hs)
      as (code' & Hcode' & Hle').
    exists code'. split; [done|]. rewrite length_append. simpl. lia.
Qed.

Lemma bfs_path_path_to heap cd x code y :
  bfs_path heap cd x code y → path_to heap x code y.
Proof.
  induction 1; [constructor|by eapply path_parent|by eapply path_spouse].
Qed.

Lemma path_to_bfs_path heap cd x code y :
  path_to heap x code y → count_S code = 0 → bfs_path heap cd x code y.
Proof.
  induction 1 as [|code u p _ IH Hp|code u s _ IH Hs]; intros Hcount.
  - constructor.
  - apply (bfs_parent _ _ _ code u); [|done]. apply IH.
    by eapply count_S_app_0.
  - rewrite count_S_app in Hcount. simpl in Hcount. lia.
Qed.

(** C2, amended: the code of [y] spells a real path from [x] to [y] with at
    most one spouse-step, one step longer than the code of the person from
    which [y] was entered, and its length is the least number of steps over
    all paths from [x] to [y] in which every spouse-step leaves a person
    whose own code holds no spouse-step; the code itself is such a path, and
    so is every chain of parent links. *)
Theorem connections_bfs_depth heap x y code :
  connections heap x !! y = Some code →
  path_to heap x code y ∧ count_S code ≤ 1 ∧
  entered_from heap (connections heap x) x y code ∧
  bfs_path heap (connections heap x) x code y ∧
  (∀ code', bfs_path heap (connections heap x) x code' y →
     String.length code ≤ String.length code') ∧
  (∀ code', path_to heap x code' y → count_S code' = 0 →
     String.length code ≤ String.length code').
Proof.
  intros Hy. destruct (connections_path _ _ _ _ Hy) as (Hpath & Hcount & Hfrom).
  assert (∀ code', bfs_path heap (connections heap x) x code' y →
            String.length code ≤ String.length code') as Hmin.
  { intros code' (c & Hc & Hle)%bfs_path_entered. by simplify_eq. }
  split_and!; [done..|by apply connections_bfs_path|done|].
  intros code' Hpath' Hcount'. by apply Hmin, path_to_bfs_path.
Qed.

Lemma connections_bfs_depth_witness :
  path_to (people (family_of in_law_family)) "X" "PPPPP" "Z" ∧
  count_S "PPPPP" ≤ 1 ∧
  entered_from (people (family_of in_law_family))
    (connections (people (family_of in_law_family)) "X") "X" "Z" "PPPPP" ∧
  bfs_path (people (family_of in_law_family))
    (connections (people (family_of in_law_family)) "X") "X" "PPPPP" "Z" ∧
  (∀ code', bfs_path (people (family_of in_law_family))
              (connections (people (family_of in_law_family)) "X")
              "X" code' "Z" →
     String.length "PPPPP" ≤ String.length code') ∧
  (∀ code', path_to (people (family_of in_law_family)) "X" code' "Z" →
     count_S code' = 0 → String.length "PPPPP" ≤ String.length code').
Proof.
  apply (connections_bfs_depth (people (family_of in_law_family)) "X" "Z").
  vm_compute. reflexivity.
Defined.

(** A spouse-step that leaves the start is on such a path: V, the spouse
    of X, is entered with "S", and Y, a parent of V, with "SP" although
    the chain of parents from X to Y has three links. *)
Example in_law_family_spouse_path :
  connections (people (family_of in_law_family)) "X" !! "Y" = Some "SP" ∧
  path_to (people (family_of in_law_family)) "X" "PPP" "Y".
Proof.
  split; [vm_compute; reflexivity|].
  apply (path_parent _ _ "PP" "B"); [|vm_compute; set_solver].
  apply (path_parent _ _ "P" "A"); [|vm_compute; set_solver].
  apply (path_parent _ _ "" "X"); [|vm_compute; set_solver].
  constructor.
Qed.

(** * Main results on [relation_to] *)

Lemma lcr_path_lcr_key heap a b key :
  lcr_path_of heap a b = Return key → lcr_key heap a b key.
Proof.
  intros Hpath. destruct (decide (shared heap a b = ∅)) as [Hempty|Hne].
  - unfold lcr_path_of in Hpath. rewrite Hempty, elements_empty in Hpath.
    done.
  - destruct (lcr_path_of_spec heap a b Hne) as (key' & Hpath' & Hkey).
    congruence.
Qed.

Lemma relation_to_lcr_key relationships heap a b key :
  lcr_key heap a b key →
  relation_to relationships heap a (Some b) =
    match relationships !! key with
    | Some entry =>
        term ← subscript entry (gender (deref heap a)); Return (Some term)
    | None => Return (Some "distant relative")
    end.
Proof.
  intros Hkey. rewrite relation_to_unfold.
  rewrite decide_False by by eapply lcr_key_shared.
  by rewrite (lcr_key_path _ _ _ _ Hkey).
Qed.

(** C1, amended: when [a] and [b] share somebody, [relation_to] takes the
    least of the combined keys [pathFromA(C) + ":" + pathFromB(C)] of all
    shared [C], in the plain order of strings, and, when the table has an
    entry under that key and the entry has a term for the gender of [a],
    returns that term. *)
Theorem relation_to_least_key relationships heap a b :
  shared heap a b ≠ ∅ →
  ∃ key, lcr_key heap a b key ∧
         lcr_path_of heap a b = Return key ∧
         ∀ entry term,
           relationships !! key = Some entry →
           entry !! gender (deref heap a) = Some term →
           relation_to relationships heap a (Some b) = Return (Some term).
Proof.
  intros Hne. destruct (lcr_path_of_spec heap a b Hne) as (key & Hpath & Hkey).
  exists key. split_and!; [done..|]. intros entry term Hentry Hterm.
  rewrite (relation_to_lcr_key _ _ _ _ _ Hkey), Hentry.
  unfold subscript. by rewrite Hterm.
Qed.

Lemma shared_nonempty heap a b person :
  bool_decide (person ∈ shared heap a b) = true → shared heap a b ≠ ∅.
Proof. intros Hin%bool_decide_eq_true. set_solver. Qed.

Lemma relation_to_least_key_witness :
  shared (people (family_of scenario1)) "Alice" "Carol" ≠ ∅ ∧
  ∃ key, lcr_key (people (family_of scenario1)) "Alice" "Carol" key ∧
         lcr_path_of (people (family_of scenario1)) "Alice" "Carol" = Return key ∧
         ∀ entry term,
           sample_table !! key = Some entry →
           entry !! gender (deref (people (family_of scenario1)) "Alice")
             = Some term →
           relation_to sample_table (people (family_of scenario1))
             "Alice" (Some "Carol") = Return (Some term).
Proof.
  assert (shared (people (family_of scenario1)) "Alice" "Carol" ≠ ∅) as Hne.
  { apply (shared_nonempty _ _ _ "Alice"). vm_compute. reflexivity. }
  split; [exact Hne|].
  exact (relation_to_least_key sample_table (people (family_of scenario1))
           "Alice" "Carol" Hne).
Defined.

(** C1, as stated, fails: A is a child of B, the least key "P:" is in the
    table, but its entry has no term for A's gender "N"; the subscript
    raises [KeyError] and nothing is returned. *)
Lemma relation_to_least_key_raises :
  Family_init other_gender_child = Return (family_of other_gender_child) ∧
  shared (people (family_of other_gender_child)) "A" "B" ≠ ∅ ∧
  lcr_key (people (family_of other_gender_child)) "A" "B" "P:" ∧
  is_Some (sample_table !! "P:") ∧
  relation_to sample_table (people (family_of other_gender_child))
    "A" (Some "B") = Raise (KeyError "N").
Proof.
  split_and!.
  - vm_compute. reflexivity.
  - apply (shared_nonempty _ _ _ "B"). vm_compute. reflexivity.
  - apply lcr_path_lcr_key. vm_compute. reflexivity.
  - eexists. vm_compute. reflexivity.
  - vm_compute. reflexivity.
Qed.

(** The least key in the plain order of strings is not always a shortest
    one: ":" sorts before "P" and "S", so a short first path wins whatever
    the length of the second. *)
Example least_key_not_shortest :
  candidate (people (family_of two_lines)) "A" "B" "PP:P" "C2" ∧
  lcr_path_of (people (family_of two_lines)) "A" "B" = Return "P:PPP".
Proof.
  split; [|vm_compute; reflexivity].
  exists "PP", "P". split_and!; vm_compute; reflexivity.
Qed.

Lemma relation_to_None_iff relationships heap a b :
  relation_to relationships heap a (Some b) = Return None ↔
  shared heap a b = ∅.
Proof.
  rewrite relation_to_unfold.
  destruct (decide (shared heap a b = ∅)) as [Hempty|Hne]; [done|].
  split; [|done]. intros Hrel. exfalso.
  destruct (lcr_path_of_spec heap a b Hne) as (key & Hpath & _).
  rewrite Hpath in Hrel. unfold mbind, result_bind, subscript in Hrel.
  destruct (relationships !! key) as [entry|]; [|done].
  by destruct (entry !! gender (deref heap a)).
Qed.

(** C4: [relation_to] returns [None] exactly when nobody is shared; this
    is a returned value, not an exception. *)
Theorem relation_to_not_related relationships heap a b :
  relation_to relationships heap a (Some b) = Return None ↔
  dom (connections heap a) ∩ dom (connections heap b) = ∅.
Proof. apply relation_to_None_iff. Qed.

(** C5: when the least combined key has no entry in the table,
    [relation_to] returns "distant relative". *)
Theorem relation_to_distant_relative relationships heap a b key :
  shared heap a b ≠ ∅ →
  lcr_key heap a b key →
  relationships !! key = None →
  relation_to relationships heap a (Some b) = Return (Some "distant relative").
Proof.
  intros _ Hkey Hnone. by rewrite (relation_to_lcr_key _ _ _ _ _ Hkey), Hnone.
Qed.

Lemma relation_to_distant_relative_witness :
  relation_to sample_table (people (family_of scenario3)) "G" (Some "C")
    = Return (Some "distant relative").
Proof.
  apply (relation_to_distant_relative sample_table
           (people (family_of scenario3)) "G" "C" ":PP").
  - apply (shared_nonempty _ _ _ "G"). vm_compute. reflexivity.
  - apply lcr_path_lcr_key. vm_compute. reflexivity.
  - vm_compute. reflexivity.
Defined.

(** Case analysis on the entries of two computed mappings. *)
Ltac by_entries H1 H2 :=
  repeat (apply elem_of_cons in H1 as [H1|H1]; [injection H1 as -> ->|]);
  [..|by apply elem_of_nil in H1];
  repeat (apply elem_of_cons in H2 as [H2|H2]; [injection H2 as ? ->|]);
  try (by apply elem_of_nil in H2); by simplify_eq.

(** C6, as stated, fails: for the step-siblings A and B the key selected
    from A is C1's and nobody else's, and the key selected from B is C2's
    and nobody else's; nobody is selected in both directions. *)
Lemma selection_not_symmetric :
  (∀ person, selects (people (family_of step_siblings)) "A" "B" person ↔
             person = "C1") ∧
  (∀ person, selects (people (family_of step_siblings)) "B" "A" person ↔
             person = "C2").
Proof.
  split; intros person; split.
  - intros (key & Hkey & path1 & path2 & H1 & H2 & ->).
    apply elem_of_map_to_list in H1, H2. vm_compute in Hkey, H1, H2.
    by_entries H1 H2.
  - intros ->. exists "P:PS". split; [vm_compute; reflexivity|].
    exists "P", "PS". split_and!; vm_compute; reflexivity.
  - intros (key & Hkey & path1 & path2 & H1 & H2 & ->).
    apply elem_of_map_to_list in H1, H2. vm_compute in Hkey, H1, H2.
    by_entries H1 H2.
  - intros ->. exists "P:PS". split; [vm_compute; reflexivity|].
    exists "P", "PS". split_and!; vm_compute; reflexivity.
Qed.

(** C8, as stated, fails: with a table that has an entry under ":" but no
    term for the gender "N", asking for the relation of A to A raises
    [KeyError]. *)
Lemma relation_to_self_raises :
  Family_init other_gender = Return (family_of other_gender) ∧
  is_Some (people (family_of other_gender) !! "A") ∧
  relation_to sample_table (people (family_of other_gender)) "A" (Some "A")
    = Raise (KeyError "N").
Proof. split_and!; [|eexists|]; vm_compute; reflexivity. Qed.

Lemma steps_only_app s t : steps_only s → steps_only t → steps_only (s +:+ t).
Proof.
  intros Hs Ht. induction s as [|c s IH]; [done|].
  rewrite app_cons. destruct Hs as [? ?]. split; auto.
Qed.

Lemma path_to_steps_only heap x code y : path_to heap x code y → steps_only code.
Proof.
  induction 1 as [|code u p _ IH _|code u s _ IH _]; [done|..];
    apply steps_only_app; simpl; auto.
Qed.

Lemma colon_le_step code rest :
  steps_only code → String.le ":" (code +:+ ":" +:+ rest).
Proof.
  destruct code as [|c code]; [by destruct rest|].
  by intros [[->| ->] _].
Qed.

(** Combined keys are ordered by their first path code before anything
    else: ":" sorts before both steps. *)
Lemma combined_le_first path1 rest1 path2 rest2 :
  steps_only path1 → steps_only path2 →
  String.le (path1 +:+ ":" +:+ rest1) (path2 +:+ ":" +:+ rest2) →
  String.le path1 path2.
Proof.
  revert path2. induction path1 as [|c1 path1 IH]; intros [|c2 path2].
  - done.
  - done.
  - by intros [[->| ->] _] _.
  - intros [Hc1 H1] [Hc2 H2]. rewrite !app_cons.
    unfold String.le, String.leb in *. simpl.
    destruct (Ascii.compare c1 c2) eqn:Hc; [|done..].
    apply IH; done.
Qed.

Lemma lcr_key_self heap x : lcr_key heap x x ":".
Proof.
  pose proof (connections_self heap x) as Hself. split.
  - exists x. by exists "", "".
  - intros key' person (p1 & p2 & H1 & H2 & ->).
    apply colon_le_step. apply connections_path in H1 as [H1 _].
    by eapply path_to_steps_only.
Qed.

(** Whoever is selected has the least path code from [a] among the shared
    individuals: the path code from [b] only breaks ties. *)
Lemma selected_least_first_path heap a b key person path1 other path1' :
  lcr_key heap a b key →
  candidate heap a b key person →
  connections heap a !! person = Some path1 →
  other ∈ shared heap a b →
  connections heap a !! other = Some path1' →
  String.le path1 path1'.
Proof.
  intros [_ Hle] (p1 & p2 & H1 & H2 & ->) Hperson
    (q1 & q2 & Hq1 & Hq2)%shared_lookup Hother.
  assert (p1 = path1) as -> by congruence.
  assert (q1 = path1') as -> by congruence.
  apply (combined_le_first path1 p2 path1' q2).
  - apply connections_path in H1 as [H1 _]. by eapply path_to_steps_only.
  - apply connections_path in Hq1 as [Hq1 _]. by eapply path_to_steps_only.
  - apply (Hle _ other). by exists path1', q2.
Qed.

Lemma compare_app_same s t1 t2 :
  String.compare (s +:+ t1) (s +:+ t2) = String.compare t1 t2.
Proof.
  induction s as [|c s IH]; [done|]. rewrite !app_cons. simpl.
  unfold Ascii.compare. by rewrite N.compare_refl.
Qed.

Lemma le_app_same s t1 t2 :
  String.le (s +:+ t1) (s +:+ t2) ↔ String.le t1 t2.
Proof. unfold String.le, String.leb. by rewrite compare_app_same. Qed.

(** A strictly smaller first path code makes the combined key smaller,
    whatever the second path codes are. *)
Lemma combined_le_strict path1 rest1 path2 rest2 :
  steps_only path1 → steps_only path2 →
  String.le path1 path2 → path1 ≠ path2 →
  String.le (path1 +:+ ":" +:+ rest1) (path2 +:+ ":" +:+ rest2).
Proof.
  revert path2. induction path1 as [|c1 path1 IH]; intros [|c2 path2].
  - done.
  - by intros _ [[->| ->] _] _ _.
  - done.
  - intros [_ H1] [_ H2]. rewrite !app_cons.
    unfold String.le, String.leb in *. simpl.
    destruct (Ascii.compare c1 c2) eqn:Hc; [|done..].
    apply Ascii.compare_eq_iff in Hc as ->. intros Hle Hne.
    apply IH; [done..|]. congruence.
Qed.

Lemma selects_least_path heap a b person :
  selects heap a b person → least_path heap a b person.
Proof.
  intros (key & Hkey%lcr_path_lcr_key & Hcand).
  pose proof Hcand as (path1 & path2 & H1 & _ & _).
  exists path1. split; [done|]. intros other path1' Hother Hlookup.
  by apply (selected_least_first_path heap a b key person path1 other).
Qed.

Lemma least_both_selects heap a b person :
  person ∈ shared heap a b →
  least_path heap a b person → least_path heap b a person →
  selects heap a b person.
Proof.
  intros (path1 & path2 & H1 & H2)%shared_lookup
    (p1 & Hp1 & Hleast1) (p2 & Hp2 & Hleast2).
  assert (p1 = path1) as -> by congruence.
  assert (p2 = path2) as -> by congruence.
  assert (candidate heap a b (path1 +:+ ":" +:+ path2) person) as Hcand
    by by exists path1, path2.
  exists (path1 +:+ ":" +:+ path2). split; [|done].
  apply lcr_key_path. split; [by exists person|].
  intros key' other (q1 & q2 & Hq1 & Hq2 & ->).
  assert (other ∈ shared heap a b) as Hother by (apply shared_lookup; eauto).
  assert (String.le path1 q1) as Hle1 by by eapply Hleast1.
  assert (String.le path2 q2) as Hle2.
  { eapply Hleast2; [|done]. unfold shared in *. set_solver. }
  destruct (decide (path1 = q1)) as [<-|Hne].
  - by rewrite 2!le_app_same.
  - apply combined_le_strict; [| |done..].
    + apply connections_path in H1 as [H1 _]. by eapply path_to_steps_only.
    + apply connections_path in Hq1 as [Hq1 _]. by eapply path_to_steps_only.
Qed.

(** C6, amended: the shared individuals are the same in both directions,
    and an individual is selected by [relation_to] in both directions
    exactly when it is shared and has both the least path code from [a] and
    the least path code from [b] among the shared individuals, in the plain
    order of strings.  Each direction puts its own path code first, so
    without such an individual the two directions select different ones. *)
Theorem selection_both_directions heap a b :
  dom (connections heap a) ∩ dom (connections heap b) =
    dom (connections heap b) ∩ dom (connections heap a) ∧
  ∀ person,
    selects heap a b person ∧ selects heap b a person ↔
    person ∈ shared heap a b ∧
    least_path heap a b person ∧ least_path heap b a person.
Proof.
  assert (shared heap b a = shared heap a b) as Hsym
    by (unfold shared; set_solver).
  split; [set_solver|]. intros person. split.
  - intros [Hab Hba]. split_and!; [|by apply selects_least_path..].
    destruct Hab as (key & _ & [Hin _]%candidate_combined). done.
  - intros (Hin & Hleast1 & Hleast2). split.
    + by apply least_both_selects.
    + apply least_both_selects; [by rewrite Hsym|done..].
Qed.

(** For the siblings X and Y of the fourth scenario the parent Z has the
    least path code from both, and both directions select Z. *)
Example siblings_select_parent :
  selects (people (family_of scenario4)) "X" "Y" "Z" ∧
  selects (people (family_of scenario4)) "Y" "X" "Z".
Proof.
  split; (exists "P:P"; split; [vm_compute; reflexivity|]);
    exists "P", "P"; split_and!; vm_compute; reflexivity.
Qed.

(** Whatever the entry under ":" is, some gender has no term in it, and an
    individual of that gender cannot be related to itself. *)
Lemma relation_to_self_unknown_gender (relationships : Table) entry :
  relationships !! ":" = Some entry →
  ∃ g family,
    Family_init (mkDescription [("A", g)] [] []) = Return family ∧
    relation_to relationships (people family) "A" (Some "A")
      = Raise (KeyError g).
Proof.
  intros Hentry. exists (fresh (dom entry)), (mkFamily {[ "A" := Person_init "A" (fresh (dom entry)) ]}).
  split; [reflexivity|].
  rewrite (relation_to_lcr_key _ _ _ _ _ (lcr_key_self _ _)), Hentry.
  unfold deref. simpl. rewrite lookup_singleton_eq. simpl.
  unfold subscript.
  by rewrite (proj1 (not_elem_of_dom entry _) (is_fresh (dom entry))).
Qed.

(** C8, amended: in a family built by [Family_init], [connections] maps
    every individual to the empty code, and the relation of an individual
    to itself has the individual among the shared ones with the least key
    ":"; the result is never [None]: it is "distant relative" when the
    table has no entry under ":", and the table's term when that entry has
    one for the individual's gender. *)
Theorem relation_to_self relationships dict1 family x p :
  Family_init dict1 = Return family →
  people family !! x = Some p →
  connections (people family) x !! x = Some "" ∧
  candidate (people family) x x ":" x ∧
  lcr_key (people family) x x ":" ∧
  relation_to relationships (people family) x (Some x) ≠ Return None ∧
  (relationships !! ":" = None →
   relation_to relationships (people family) x (Some x)
     = Return (Some "distant relative")) ∧
  (∀ entry term,
     relationships !! ":" = Some entry → entry !! gender p = Some term →
     relation_to relationships (people family) x (Some x)
       = Return (Some term)).
Proof.
  intros _ Hp. set (heap := people family).
  pose proof (connections_self heap x) as Hself.
  assert (candidate heap x x ":" x) as Hcand by by exists "", "".
  pose proof (lcr_key_self heap x) as Hkey.
  assert (gender (deref heap x) = gender p) as Hgender.
  { unfold deref, heap. by rewrite Hp. }
  split_and!; [done..| | |].
  - rewrite relation_to_None_iff. by apply (lcr_key_shared _ _ _ _ Hkey).
  - intros Hnone. by rewrite (relation_to_lcr_key _ _ _ _ _ Hkey), Hnone.
  - intros entry term Hentry Hterm.
    rewrite (relation_to_lcr_key _ _ _ _ _ Hkey), Hentry, Hgender.
    unfold subscript. by rewrite Hterm.
Qed.

Lemma relation_to_self_witness :
  relation_to sample_table (people (family_of scenario1)) "Bob" (Some "Bob")
    = Return (Some "self").
Proof.
  destruct (relation_to_self sample_table scenario1 (family_of scenario1)
              "Bob" (mkPerson "Bob" "M" [] (Some "Alice")))
    as (_ & _ & _ & _ & _ & Hterm).
  - vm_compute. reflexivity.
  - vm_compute. reflexivity.
  - apply (Hterm {[ "M" := "self"; "F" := "self" ]} "self");
      vm_compute; reflexivity.
Defined.

(** * Main results on [Family] *)

(** C7: a parent list or a couple pair that names somebody who is not an
    individual makes [Family.__init__] raise [KeyError]; no family is
    built. *)
Theorem Family_init_unknown_individual dict1 :
  unknown_reference dict1 →
  ∃ name, ¬ known dict1 name ∧ Family_init dict1 = Raise (KeyError name).
Proof.
  intros Hunknown. pose proof (Family_init_spec dict1) as Hspec.
  destruct (Family_init dict1) as [family|e].
  - exfalso. destruct Hspec as (_ & Hparents & Hcouples).
    destruct Hunknown as [(child & names & parent & Hin & Hp & Hno)|
                          (name1 & name2 & Hin & Hno)].
    + rewrite Forall_forall in Hparents. specialize (Hparents _ Hin).
      rewrite Forall_forall in Hparents. by apply Hno, Hparents.
    + rewrite Forall_forall in Hcouples.
      destruct (Hcouples _ Hin) as [? ?]. tauto.
  - destruct Hspec as (name & -> & Hno). eauto.
Qed.

Lemma Family_init_unknown_individual_witness :
  ∃ name, ¬ known unknown_parent name ∧
          Family_init unknown_parent = Raise (KeyError name).
Proof.
  apply (Family_init_unknown_individual unknown_parent).
  left. exists "A", ["B"], "B". split_and!.
  - left.
  - left.
  - unfold known. simpl. intros Hin%list_elem_of_singleton. discriminate Hin.
Defined.

Example unknown_parent_raises :
  Family_init unknown_parent = Raise (KeyError "B").
Proof. reflexivity. Qed.

(** C10: [Family.relation] with a name that is not a key of [people] raises
    [AttributeError]: [people.get] answers [None] and a method is called on
    it. *)
Theorem Family_relation_unknown_name relationships family name1 name2 :
  people family !! name1 = None ∨ people family !! name2 = None →
  Family_relation relationships family name1 name2 = Raise AttributeError.
Proof.
  intros Hnone. unfold Family_relation, people_get.
  destruct (people family !! name1) as [person1|]; simpl; [|done].
  destruct Hnone as [?|Hnone]; [done|]. by rewrite Hnone.
Qed.

Lemma Family_relation_unknown_name_witness :
  Family_relation sample_table (family_of scenario3) "G" "Q"
    = Raise AttributeError.
Proof.
  apply (Family_relation_unknown_name sample_table (family_of scenario3)
           "G" "Q").
  right. vm_compute. reflexivity.
Defined.

(** * Further results on [Family.__init__] *)

Lemma for_each_Return {S A} (P : S → Prop) (f : S → A → result S) l s :
  P s →
  (∀ s x, P s → x ∈ l → ∃ s', f s x = Return s' ∧ P s') →
  ∃ s', for_each f l s = Return s' ∧ P s'.
Proof.
  revert s. induction l as [|x l IH]; intros s Hs Hf; simpl; [eauto|].
  destruct (Hf s x Hs) as (s1 & Hx & Hs1); [left|].
  rewrite Hx. simpl. apply IH; [done|].
  intros ????. apply Hf; [done|by right].
Qed.

Lemma for_each_cons_Return {S A} (f : S → A → result S) x l s s' :
  for_each f (x :: l) s = Return s' →
  ∃ s1, f s x = Return s1 ∧ for_each f l s1 = Return s'.
Proof. simpl. destruct (f s x) as [s1|e]; [eauto|done]. Qed.

Lemma subscript_Return {V} (d : gmap string V) k v :
  subscript d k = Return v ↔ d !! k = Some v.
Proof.
  unfold subscript. destruct (d !! k); split; intros; by simplify_eq.
Qed.

Lemma subscript_known dict1 (people : Store) k :
  (∀ k, is_Some (people !! k) ↔ known dict1 k) →
  known dict1 k → ∃ p, subscript people k = Return p.
Proof.
  intros Hdom [p Hp]%Hdom. exists p. by apply subscript_Return.
Qed.

Section family_content.
Context (dict1 : Description).

Lemma link_parents_known (people : Store) entry :
  built_from dict1 people →
  match link_parents people entry with
  | Return people' =>
      built_from dict1 people' ∧
      (known dict1 entry.1 ∧ Forall (known dict1) entry.2)
  | Raise e => unknown_individual dict1 e
  end.
Proof.
  intros Hb. pose proof (subscript_spec dict1 people entry.1 Hb) as Hsub.
  pose proof (link_parents_spec dict1 people entry Hb) as Hspec.
  unfold link_parents, mbind, result_bind in *.
  destruct (subscript people entry.1); [|done].
  destruct (for_each _ _ _); [|done]. naive_solver.
Qed.

Lemma Family_init_all_known family :
  Family_init dict1 = Return family → all_known dict1.
Proof.
  unfold Family_init, mbind, result_bind.
  pose proof (for_each_inv (built_from dict1)
    (λ entry, known dict1 entry.1 ∧ Forall (known dict1) entry.2)
    (unknown_individual dict1)
    link_parents (parent_lists dict1) _ (built_from_start dict1)
    (λ s x Hs _, link_parents_known s x Hs)) as H1.
  destruct (for_each link_parents _ _) as [people1|e]; [|done].
  destruct H1 as [Hb1 Hparents].
  pose proof (for_each_inv (built_from dict1)
    (λ couple, known dict1 couple.1 ∧ known dict1 couple.2)
    (unknown_individual dict1)
    link_couple (couples dict1) _ Hb1
    (λ s x Hs _, link_couple_spec dict1 s x Hs)) as H2.
  destruct (for_each link_couple _ _) as [people2|e]; [|done].
  destruct H2 as [_ Hcouples]. by intros _.
Qed.

Lemma link_parent_Return person_name (people : Store) parent_name :
  (∀ k, is_Some (people !! k) ↔ known dict1 k) →
  known dict1 parent_name →
  ∃ people', link_parent person_name people parent_name = Return people' ∧
             (∀ k, is_Some (people' !! k) ↔ known dict1 k).
Proof.
  intros Hdom Hk. destruct (subscript_known _ _ _ Hdom Hk) as [p Hp].
  unfold link_parent. rewrite Hp. simpl. eexists. split; [done|].
  intros k. by rewrite alter_is_Some.
Qed.

Lemma link_parents_Return (people : Store) entry :
  (∀ k, is_Some (people !! k) ↔ known dict1 k) →
  known dict1 entry.1 → Forall (known dict1) entry.2 →
  ∃ people', link_parents people entry = Return people' ∧
             (∀ k, is_Some (people' !! k) ↔ known dict1 k).
Proof.
  intros Hdom Hk Hps. destruct (subscript_known _ _ _ Hdom Hk) as [p Hp].
  unfold link_parents. rewrite Hp. simpl.
  apply (for_each_Return (λ s : Store, ∀ k, is_Some (s !! k) ↔ known dict1 k));
    [done|].
  intros s x Hs Hx. apply link_parent_Return; [done|].
  rewrite Forall_forall in Hps. by apply Hps.
Qed.

Lemma link_couple_Return (people : Store) couple :
  (∀ k, is_Some (people !! k) ↔ known dict1 k) →
  known dict1 couple.1 → known dict1 couple.2 →
  ∃ people', link_couple people couple = Return people' ∧
             (∀ k, is_Some (people' !! k) ↔ known dict1 k).
Proof.
  intros Hdom H1 H2. destruct (subscript_known _ _ _ Hdom H1) as [p1 Hp1].
  destruct (subscript_known _ _ _ Hdom H2) as [p2 Hp2].
  unfold link_couple. rewrite Hp1, Hp2. simpl. eexists. split; [done|].
  intros k. by rewrite !alter_is_Some.
Qed.

Lemma all_known_Family_init :
  all_known dict1 → ∃ family, Family_init dict1 = Return family.
Proof.
  intros [Hparents Hcouples]. unfold Family_init.
  destruct (built_from_start dict1) as [Hdom0 _].
  destruct (for_each_Return
    (λ s : Store, ∀ k, is_Some (s !! k) ↔ known dict1 k)
    link_parents (parent_lists dict1) _ Hdom0) as (people1 & -> & Hdom1).
  { intros s x Hs Hx. rewrite Forall_forall in Hparents.
    destruct (Hparents x Hx). by apply link_parents_Return. }
  simpl.
  destruct (for_each_Return
    (λ s : Store, ∀ k, is_Some (s !! k) ↔ known dict1 k)
    link_couple (couples dict1) _ Hdom1) as (people2 & -> & Hdom2).
  { intros s x Hs Hx. rewrite Forall_forall in Hcouples.
    destruct (Hcouples x Hx). by apply link_couple_Return. }
  simpl. eauto.
Qed.
End family_content.

(** X1: [Family.__init__] builds a family exactly when every name used in
    the parents section, as a key or in a list, and every name in the
    couples section is a key of the individuals section. *)
Theorem Family_init_succeeds_iff dict1 :
  (∃ family, Family_init dict1 = Return family) ↔ all_known dict1.
Proof.
  split.
  - intros [family Hinit]. by eapply Family_init_all_known.
  - apply all_known_Family_init.
Qed.

(** ** What the built family holds *)

Lemma create_people_content (l : list (string * string)) (people : Store) k p :
  foldl create_person people l !! k = Some p →
  people !! k = Some p ∨ ∃ g, (k, g) ∈ l ∧ p = Person_init k g.
Proof.
  revert people. induction l as [|[n g] l IH]; intros people; simpl; [auto|].
  intros [Hp|(g' & ? & ?)]%IH.
  - unfold create_person in Hp. simpl in Hp.
    apply lookup_insert_Some in Hp as [[<- <-]|[_ ?]]; [|by left].
    right. exists g. split; [left|done].
  - right. exists g'. split; [by right|done].
Qed.

Lemma link_parent_content child (s s' : Store) parent_name k :
  link_parent child s parent_name = Return s' →
  s' !! k = if decide (child = k)
            then (λ p, add_parent p parent_name) <$> s !! child
            else s !! k.
Proof.
  unfold link_parent. destruct (subscript s parent_name); [|done].
  simpl. intros [= <-]. apply lookup_alter.
Qed.

Lemma link_parent_list_content child names (s s' : Store) k p' :
  for_each (link_parent child) names s = Return s' →
  s' !! k = Some p' →
  ∃ p, s !! k = Some p ∧
       p' = mkPerson (name p) (gender p)
              (parents p ++ if decide (child = k) then names else [])
              (spouse p).
Proof.
  revert s. induction names as [|n names IH]; intros s.
  - simpl. intros [= <-] Hp'. exists p'. split; [done|].
    destruct p'. simpl. by case_decide; rewrite app_nil_r.
  - intros (s1 & Hstep & Hrest)%for_each_cons_Return Hp'.
    destruct (IH _ Hrest Hp') as (p1 & Hp1 & ->).
    rewrite (link_parent_content _ _ _ _ k Hstep) in Hp1.
    case_decide; subst; [|eauto].
    apply fmap_Some in Hp1 as (p & Hp & ->). exists p. split; [done|].
    simpl. by rewrite <-app_assoc.
Qed.

Lemma parents_listed_cons child ns entries k :
  parents_listed ((child, ns) :: entries) k =
    (if decide (child = k) then ns else []) ++ parents_listed entries k.
Proof. reflexivity. Qed.

Lemma link_parents_content entries (s s' : Store) k p' :
  for_each link_parents entries s = Return s' →
  s' !! k = Some p' →
  ∃ p, s !! k = Some p ∧
       p' = mkPerson (name p) (gender p)
              (parents p ++ parents_listed entries k) (spouse p).
Proof.
  revert s. induction entries as [|[child names] entries IH]; intros s.
  - simpl. intros [= <-] Hp'. exists p'. split; [done|].
    destruct p'. simpl. by rewrite app_nil_r.
  - intros (s1 & Hstep & Hrest)%for_each_cons_Return Hp'.
    destruct (IH _ Hrest Hp') as (p1 & Hp1 & ->).
    unfold link_parents in Hstep. simpl in Hstep.
    destruct (subscript s child); [|done]. simpl in Hstep.
    destruct (link_parent_list_content _ _ _ _ _ _ Hstep Hp1) as (p & Hp & ->).
    exists p. split; [done|]. rewrite parents_listed_cons. simpl.
    by rewrite <-app_assoc.
Qed.

Lemma link_couple_content (s s' : Store) couple k p' :
  link_couple s couple = Return s' →
  s' !! k = Some p' →
  ∃ p, s !! k = Some p ∧
       p' = mkPerson (name p) (gender p) (parents p)
              (spouse_step k (spouse p) couple).
Proof.
  unfold link_couple. destruct (subscript s couple.1); [|done].
  destruct (subscript s couple.2); [|done]. simpl. intros [= <-].
  destruct couple as [a1 a2]. unfold spouse_step. simpl.
  rewrite !lookup_alter. intros Hp'.
  repeat case_decide; simplify_eq;
    repeat (apply fmap_Some in Hp' as (? & Hp' & ->));
    eexists; (split; [done|]); try done; by destruct p'.
Qed.

Lemma link_couples_content pairs (s s' : Store) k p' :
  for_each link_couple pairs s = Return s' →
  s' !! k = Some p' →
  ∃ p, s !! k = Some p ∧
       p' = mkPerson (name p) (gender p) (parents p)
              (foldl (spouse_step k) (spouse p) pairs).
Proof.
  revert s. induction pairs as [|couple pairs IH]; intros s.
  - simpl. intros [= <-] Hp'. exists p'. split; [done|]. by destruct p'.
  - intros (s1 & Hstep & Hrest)%for_each_cons_Return Hp'.
    destruct (IH _ Hrest Hp') as (p1 & Hp1 & ->).
    destruct (link_couple_content _ _ _ _ _ Hstep Hp1) as (p & Hp & ->).
    exists p. split; [done|]. done.
Qed.

Lemma Family_init_content dict1 family k p :
  Family_init dict1 = Return family →
  people family !! k = Some p →
  ∃ g, (k, g) ∈ individuals dict1 ∧
       p = mkPerson k g (parents_listed (parent_lists dict1) k)
             (spouse_listed (couples dict1) k).
Proof.
  unfold Family_init.
  destruct (for_each link_parents _ _) as [people1|] eqn:H1; [|done].
  simpl. destruct (for_each link_couple _ _) as [people2|] eqn:H2; [|done].
  simpl. intros [= <-] Hp. simpl in Hp.
  destruct (link_couples_content _ _ _ _ _ H2 Hp) as (p1 & Hp1 & ->).
  destruct (link_parents_content _ _ _ _ _ H1 Hp1) as (p0 & Hp0 & ->).
  apply create_people_content in Hp0 as [Hp0|(g & Hg & ->)].
  { by rewrite lookup_empty in Hp0. }
  exists g. split; [done|]. done.
Qed.

Lemma parents_listed_none entries k :
  k ∉ entries.*1 → parents_listed entries k = [].
Proof.
  induction entries as [|[c ns] entries IH]; [done|].
  rewrite parents_listed_cons. simpl. rewrite not_elem_of_cons. intros [? ?].
  rewrite decide_False by done. simpl. auto.
Qed.

Lemma parents_listed_unique entries k names :
  NoDup entries.*1 → (k, names) ∈ entries → parents_listed entries k = names.
Proof.
  induction entries as [|[child ns] entries IH].
  { by intros _ ?%elem_of_nil. }
  rewrite parents_listed_cons. simpl.
  intros [Hnotin Hnd]%NoDup_cons [[= <- <-]|Hin]%elem_of_cons.
  - rewrite decide_True by done.
    by rewrite parents_listed_none, app_nil_r.
  - rewrite decide_False; [by apply IH|]. intros ->. apply Hnotin.
    apply list_elem_of_fmap. by exists (k, names).
Qed.

Lemma couple_names_cons a b pairs :
  couple_names ((a, b) :: pairs) = a :: b :: couple_names pairs.
Proof. reflexivity. Qed.

Lemma spouse_step_other pairs k acc :
  k ∉ couple_names pairs → foldl (spouse_step k) acc pairs = acc.
Proof.
  revert acc. induction pairs as [|[a b] pairs IH]; intros acc; [done|].
  rewrite couple_names_cons, !not_elem_of_cons. intros (? & ? & ?).
  simpl. unfold spouse_step at 2. simpl. rewrite !decide_False by done. auto.
Qed.

Lemma spouse_step_source pairs k acc s :
  foldl (spouse_step k) acc pairs = Some s →
  acc = Some s ∨ (k, s) ∈ pairs ∨ (s, k) ∈ pairs.
Proof.
  revert acc. induction pairs as [|[a b] pairs IH]; intros acc; [by left|].
  simpl. intros [Hacc|[?|?]]%IH; [|right; left; by right|right; right; by right].
  unfold spouse_step in Hacc. simpl in Hacc.
  repeat case_decide; simplify_eq; auto; right; [right|left]; left.
Qed.

Lemma spouse_step_matching pairs a b acc1 acc2 :
  NoDup (couple_names pairs) → (a, b) ∈ pairs →
  foldl (spouse_step a) acc1 pairs = Some b ∧
  foldl (spouse_step b) acc2 pairs = Some a.
Proof.
  revert acc1 acc2. induction pairs as [|[a' b'] pairs IH]; intros acc1 acc2.
  { by intros _ ?%elem_of_nil. }
  rewrite couple_names_cons.
  intros [Ha' [Hb' Hnd]%NoDup_cons]%NoDup_cons.
  rewrite not_elem_of_cons in Ha'. destruct Ha' as [Hne Ha'].
  intros [[= -> ->]|Hin]%elem_of_cons; simpl.
  - unfold spouse_step at 2 4. simpl.
    rewrite (decide_False (P := a' = b')) by done.
    rewrite !decide_True by done. by rewrite !spouse_step_other.
  - by apply IH.
Qed.

(** X2: the people of a built family are exactly the individuals of the
    description; each one is stored under its own name, with a gender that
    the individuals section lists for that name. *)
Theorem Family_init_individuals dict1 family :
  Family_init dict1 = Return family →
  (∀ k, is_Some (people family !! k) ↔ known dict1 k) ∧
  (∀ k p, people family !! k = Some p →
     name p = k ∧ (k, gender p) ∈ individuals dict1).
Proof.
  intros Hinit. split.
  - pose proof (Family_init_spec dict1) as Hspec. rewrite Hinit in Hspec.
    by destruct Hspec as [[? _] _].
  - intros k p Hp.
    by destruct (Family_init_content _ _ _ _ Hinit Hp) as (g & ? & ->).
Qed.

Lemma Family_init_individuals_witness :
  (∀ k, is_Some (people (family_of scenario1) !! k) ↔ known scenario1 k) ∧
  (∀ k p, people (family_of scenario1) !! k = Some p →
     name p = k ∧ (k, gender p) ∈ individuals scenario1).
Proof.
  apply (Family_init_individuals scenario1 (family_of scenario1)).
  vm_compute. reflexivity.
Defined.

(** X3: in a built family the parents of a person are the names listed
    for it in the parents section, in the same order; a person that the
    section does not list has no parents. *)
Theorem Family_init_parents dict1 family k p :
  Family_init dict1 = Return family →
  people family !! k = Some p →
  parents p = parents_listed (parent_lists dict1) k ∧
  (NoDup (parent_lists dict1).*1 →
   ∀ names, (k, names) ∈ parent_lists dict1 → parents p = names) ∧
  (k ∉ (parent_lists dict1).*1 → parents p = []).
Proof.
  intros Hinit Hp.
  destruct (Family_init_content _ _ _ _ Hinit Hp) as (g & _ & ->). simpl.
  split_and!; [done| |].
  - intros Hnd names Hin. by apply parents_listed_unique.
  - apply parents_listed_none.
Qed.

Lemma Family_init_parents_witness :
  parents (mkPerson "Carol" "F" ["Alice"; "Bob"] None)
    = parents_listed (parent_lists scenario1) "Carol" ∧
  (NoDup (parent_lists scenario1).*1 →
   ∀ names, ("Carol", names) ∈ parent_lists scenario1 →
     parents (mkPerson "Carol" "F" ["Alice"; "Bob"] None) = names) ∧
  ("Carol" ∉ (parent_lists scenario1).*1 →
   parents (mkPerson "Carol" "F" ["Alice"; "Bob"] None) = []).
Proof.
  apply (Family_init_parents scenario1 (family_of scenario1) "Carol").
  - vm_compute. reflexivity.
  - vm_compute. reflexivity.
Defined.

(** X4: when no name occurs twice in the couples section, the spouse of a
    person in the built family is the partner listed with it, a person in no
    pair has no spouse, and spouse links are mutual. *)
Theorem Family_init_spouses dict1 family k p :
  Family_init dict1 = Return family →
  NoDup (couple_names (couples dict1)) →
  people family !! k = Some p →
  (∀ s, spouse p = Some s ↔
        (k, s) ∈ couples dict1 ∨ (s, k) ∈ couples dict1) ∧
  (∀ s, spouse p = Some s →
        ∃ q, people family !! s = Some q ∧ spouse q = Some k).
Proof.
  intros Hinit Hnd Hp.
  destruct (Family_init_content _ _ _ _ Hinit Hp) as (g & _ & ->). simpl.
  assert (∀ s, spouse_listed (couples dict1) k = Some s ↔
               (k, s) ∈ couples dict1 ∨ (s, k) ∈ couples dict1) as Hiff.
  { intros s. unfold spouse_listed. split.
    - by intros [?|?]%spouse_step_source.
    - intros [Hin|Hin].
      + by destruct (spouse_step_matching _ _ _ None None Hnd Hin).
      + by destruct (spouse_step_matching _ _ _ None None Hnd Hin). }
  split; [done|]. intros s Hs%Hiff.
  pose proof (Family_init_all_known _ _ Hinit) as [_ Hcouples].
  rewrite Forall_forall in Hcouples.
  pose proof (Family_init_spec dict1) as Hspec. rewrite Hinit in Hspec.
  destruct Hspec as [[Hdom _] _].
  assert (known dict1 s) as [q Hq]%Hdom.
  { destruct Hs as [Hin|Hin]; by destruct (Hcouples _ Hin). }
  exists q. split; [done|].
  destruct (Family_init_content _ _ _ _ Hinit Hq) as (g' & _ & ->). simpl.
  unfold spouse_listed. destruct Hs as [Hin|Hin].
  - by destruct (spouse_step_matching _ _ _ None None Hnd Hin).
  - by destruct (spouse_step_matching _ _ _ None None Hnd Hin).
Qed.

Lemma Family_init_spouses_witness :
  (∀ s, spouse (mkPerson "Bob" "M" [] (Some "Alice")) = Some s ↔
        ("Bob", s) ∈ couples scenario1 ∨ (s, "Bob") ∈ couples scenario1) ∧
  (∀ s, spouse (mkPerson "Bob" "M" [] (Some "Alice")) = Some s →
        ∃ q, people (family_of scenario1) !! s = Some q ∧
             spouse q = Some "Bob").
Proof.
  apply (Family_init_spouses scenario1 (family_of scenario1) "Bob").
  - vm_compute. reflexivity.
  - apply (NoDup_cons_2 "Alice"); [|apply NoDup_singleton].
    intros Hin%list_elem_of_singleton. discriminate Hin.
  - vm_compute. reflexivity.
Defined.

(** * Further results on [connections] *)

Lemma loop_body_keeps heap st k v :
  st.1 !! k = Some v → (loop_body heap st).1 !! k = Some v.
Proof.
  destruct st as [cd [|person queue]]; [by rewrite loop_body_nil|].
  rewrite loop_body_cons. simpl. intros Hk.
  by apply (foldl_discover_keeps _ (cd, queue)).
Qed.

Lemma connections_loop_keeps heap self n m k v :
  n ≤ m →
  (connections_loop n heap self).1 !! k = Some v →
  (connections_loop m heap self).1 !! k = Some v.
Proof.
  intros Hle Hk. induction Hle as [|m _ IH]; [done|].
  unfold connections_loop in *. simpl. by apply loop_body_keeps.
Qed.

Lemma connections_loop_final heap self n k v :
  (connections_loop n heap self).1 !! k = Some v →
  connections heap self !! k = Some v.
Proof.
  intros Hk. unfold connections.
  destruct (decide (n ≤ size (universe heap self))) as [Hle|Hgt].
  - by eapply connections_loop_keeps.
  - replace n with (size (universe heap self) + (n - size (universe heap self)))
      in Hk by lia.
    by rewrite connections_loop_stable in Hk by apply connections_loop_exits.
Qed.

(** X5: a code entered into [cdict] at any turn of the loop is never
    changed: it is the code that [connections] returns. *)
Theorem connections_code_is_final heap self n k code :
  (connections_loop n heap self).1 !! k = Some code →
  connections heap self !! k = Some code.
Proof. apply connections_loop_final. Qed.

Lemma connections_code_is_final_witness :
  connections (people (family_of in_law_family)) "X" !! "V" = Some "S".
Proof.
  apply (connections_code_is_final (people (family_of in_law_family))
           "X" 1 "V" "S").
  vm_compute. reflexivity.
Defined.

Lemma foldl_discover_same code (st : LoopState) ps k :
  (foldl (discover code) st ps).1 !! k =
    match st.1 !! k with
    | Some v => Some v
    | None => if decide (k ∈ ps) then Some code else None
    end.
Proof.
  revert st. induction ps as [|p ps IH]; intros st.
  { cbn [foldl]. destruct (st.1 !! k); [done|].
    case_decide as Hin; [by apply elem_of_nil in Hin|done]. }
  cbn [foldl]. rewrite IH, discover_lookup. destruct (st.1 !! k); [done|].
  destruct (decide (k = p)) as [->|Hne].
  - rewrite decide_True; [done|left].
  - destruct (decide (k ∈ ps)).
    + rewrite decide_True; [done|by right].
    + rewrite decide_False; [done|]. rewrite elem_of_cons. tauto.
Qed.

Lemma first_turn heap x :
  connections_loop 1 heap x =
    let st1 := foldl (discover "P") ({[x := ""]}, []) (parents (deref heap x)) in
    match spouse (deref heap x) with
    | Some spouse => discover "S" st1 spouse
    | None => st1
    end.
Proof.
  unfold connections_loop, connections_start, loop_body. simpl.
  by rewrite lookup_total_singleton_eq.
Qed.

(** X6: [connections] gives every parent of the start the code "P", and
    the spouse of the start the code "S" unless the spouse is also a parent;
    the start itself keeps the empty code. *)
Theorem connections_direct_relatives heap x :
  connections heap x !! x = Some "" ∧
  (∀ p, p ∈ parents (deref heap x) → p ≠ x →
        connections heap x !! p = Some "P") ∧
  (∀ s, spouse (deref heap x) = Some s → s ≠ x →
        s ∉ parents (deref heap x) →
        connections heap x !! s = Some "S").
Proof.
  split_and!.
  - apply connections_self.
  - intros p Hp Hne. apply (connections_loop_final heap x 1).
    rewrite first_turn. simpl.
    assert ((foldl (discover "P") ({[x := ""]}, []) (parents (deref heap x))).1
              !! p = Some "P") as Hfold.
    { rewrite foldl_discover_same. simpl.
      rewrite lookup_singleton_ne by done. by rewrite decide_True. }
    destruct (spouse (deref heap x)); [|done].
    by rewrite discover_lookup, Hfold.
  - intros s Hs Hne Hnotin. apply (connections_loop_final heap x 1).
    rewrite first_turn. simpl. rewrite Hs.
    rewrite discover_lookup, foldl_discover_same. simpl.
    rewrite lookup_singleton_ne by done.
    rewrite decide_False by done. by rewrite decide_True.
Qed.

Lemma connections_direct_relatives_witness :
  connections (people (family_of scenario1)) "Carol" !! "Bob" = Some "P" ∧
  connections (people (family_of scenario1)) "Alice" !! "Bob" = Some "S".
Proof.
  split.
  - apply (connections_direct_relatives (people (family_of scenario1))
             "Carol").
    + vm_compute. right. left.
    + discriminate.
  - apply (connections_direct_relatives (people (family_of scenario1))
             "Alice").
    + vm_compute. reflexivity.
    + discriminate.
    + vm_compute. apply not_elem_of_nil.
Defined.

Section spouses.
Context (heap : Store) (self : string).

Lemma spouses_entered_start : spouses_entered heap (connections_start self).
Proof.
  intros v code s Hv Hnotin. unfold connections_start in *. simpl in *.
  apply lookup_singleton_Some in Hv as [<- _]. destruct Hnotin. left.
Qed.

Lemma spouses_entered_step st :
  codes_ok heap self st →
  spouses_entered heap st → spouses_entered heap (loop_body heap st).
Proof.
  destruct st as [cd [|person queue]]; [by rewrite loop_body_nil|].
  intros (_ & Hqueue & _) Hinv. rewrite loop_body_cons.
  destruct (Hqueue person) as [personpath Hperson]; [left|]. simpl in *.
  rewrite (lookup_total_correct _ _ _ Hperson).
  set (ts := targets heap personpath person).
  destruct (foldl_discover_queue ts (cd, queue)) as (news & Hq & _ & Hin).
  simpl in *. intros v code s Hv Hnotin HS Hs. rewrite Hq in Hnotin.
  destruct (decide (v = person)) as [->|Hne].
  - assert (code = personpath) as ->.
    { eapply (foldl_discover_keeps ts (cd, queue)) in Hperson. congruence. }
    apply (foldl_discover_covers ts (cd, queue) (personpath +:+ "S")).
    unfold ts, targets. apply elem_of_app. right. rewrite Hs, HS. left.
  - pose proof Hv as Hv'.
    apply foldl_discover_new in Hv' as [Hold|[Hnone Hnew]]; simpl in *.
    + destruct (Hinv v code s) as [c Hc]; simpl; [done| |done..|].
      { rewrite elem_of_cons. intros [?|?]; [done|].
        apply Hnotin, elem_of_app. by left. }
      exists c. by apply (foldl_discover_keeps ts (cd, queue)).
    + exfalso. apply Hnotin, elem_of_app. right. apply Hin. eauto.
Qed.

Lemma connections_loop_spouses_entered n :
  spouses_entered heap (connections_loop n heap self).
Proof.
  induction n as [|n IH]; [apply spouses_entered_start|].
  unfold connections_loop in *. simpl.
  apply spouses_entered_step; [|done]. apply connections_loop_codes_ok.
Qed.
End spouses.

(** X7: the mapping returned by [connections] is closed under parent
    links, and under the spouse link of everybody whose code holds no "S". *)
Theorem connections_closed_under_links heap x u code :
  connections heap x !! u = Some code →
  (∀ p, p ∈ parents (deref heap u) → is_Some (connections heap x !! p)) ∧
  (count_S code = 0 →
   ∀ s, spouse (deref heap u) = Some s → is_Some (connections heap x !! s)).
Proof.
  intros Hu. split.
  - intros p Hp.
    destruct (connections_parents_entered heap x u code p Hu Hp) as (c & ? & _).
    eauto.
  - intros Hcount%contains_S_count s Hs. unfold connections in *.
    apply (connections_loop_spouses_entered heap x _ u code s); [done| |done..].
    rewrite connections_loop_exits. apply not_elem_of_nil.
Qed.

Lemma connections_closed_under_links_witness :
  (∀ p, p ∈ parents (deref (people (family_of in_law_family)) "B") →
        is_Some (connections (people (family_of in_law_family)) "X" !! p)) ∧
  (count_S "PP" = 0 →
   ∀ s, spouse (deref (people (family_of in_law_family)) "B") = Some s →
        is_Some (connections (people (family_of in_law_family)) "X" !! s)).
Proof.
  apply (connections_closed_under_links (people (family_of in_law_family))
           "X" "B" "PP").
  vm_compute. reflexivity.
Defined.

(** X8: everybody reached from the start by parent links alone is in the
    mapping returned by [connections], with a code no longer than that
    chain of parents. *)
Theorem connections_holds_ancestors heap x code y :
  path_to heap x code y → count_S code = 0 →
  ∃ code', connections heap x !! y = Some code' ∧
           String.length code' ≤ String.length code.
Proof. apply connections_ancestor. Qed.

Lemma connections_holds_ancestors_witness :
  ∃ code', connections (people (family_of scenario3)) "C" !! "G" = Some code' ∧
           String.length code' ≤ String.length "PP".
Proof.
  apply (connections_holds_ancestors (people (family_of scenario3)) "C" "PP" "G").
  - apply (path_parent _ _ "P" "P"); [|vm_compute; left].
    apply (path_parent _ _ "" "C"); [|vm_compute; left].
    constructor.
  - reflexivity.
Defined.

Lemma mentioned_closed (heap : Store) y :
  closed heap → y ∈ mentioned heap → is_Some (heap !! y).
Proof.
  intros Hclosed. unfold mentioned.
  rewrite elem_of_union, elem_of_dom, elem_of_union_list.
  intros [?|(X & HX & Hy)]; [done|].
  apply list_elem_of_fmap in HX as (p & -> & Hp).
  apply list_elem_of_fmap in Hp as ([k p'] & -> & Hkp).
  apply elem_of_map_to_list in Hkp. simpl in Hy.
  destruct (Hclosed _ _ Hkp) as (_ & Hpar & Hsp).
  unfold relatives in Hy. apply elem_of_union in Hy as [Hy|Hy].
  - apply Hpar. by apply elem_of_list_to_set in Hy.
  - destruct (spouse p') as [s|]; simpl in Hy; [|by apply elem_of_empty in Hy].
    apply elem_of_singleton in Hy as ->. by apply Hsp.
Qed.

Lemma connections_universe heap x y :
  is_Some (connections heap x !! y) → y ∈ universe heap x.
Proof.
  unfold connections.
  destruct (loop_tracked heap x (size (universe heap x)))
    as (done & (_ & _ & Huni) & _).
  apply Huni.
Qed.

(** X9: on a built family, [connections] from an individual returns only
    individuals of the description, so at most as many entries as the
    family has people. *)
Theorem connections_within_family dict1 family x p :
  Family_init dict1 = Return family →
  people family !! x = Some p →
  (∀ y, is_Some (connections (people family) x !! y) → known dict1 y) ∧
  size (connections (people family) x) ≤ size (people family).
Proof.
  intros Hinit Hx. pose proof (Family_init_spec dict1) as Hspec.
  rewrite Hinit in Hspec. destruct Hspec as [[Hdom Hclosed] _].
  assert (∀ y, is_Some (connections (people family) x !! y) →
               is_Some (people family !! y)) as Hin.
  { intros y Hy%connections_universe. unfold universe in Hy.
    apply elem_of_union in Hy as [->%elem_of_singleton|Hy]; [by eexists|].
    by apply mentioned_closed. }
  split.
  - intros y Hy. by apply Hdom, Hin.
  - rewrite <-!(size_dom (D := gset string)). apply subseteq_size.
    intros y. rewrite !elem_of_dom. apply Hin.
Qed.

Lemma connections_within_family_witness :
  (∀ y, is_Some (connections (people (family_of scenario1)) "Carol" !! y) →
        known scenario1 y) ∧
  size (connections (people (family_of scenario1)) "Carol")
    ≤ size (people (family_of scenario1)).
Proof.
  apply (connections_within_family scenario1 (family_of scenario1) "Carol"
           (mkPerson "Carol" "F" ["Alice"; "Bob"] None)).
  - vm_compute. reflexivity.
  - vm_compute. reflexivity.
Defined.

Lemma universe_size_pos heap x : 0 < size (universe heap x).
Proof.
  assert (size (universe heap x) ≠ 0); [|lia].
  apply size_non_empty_iff. unfold universe. set_solver.
Qed.

Lemma connections_leaf heap x :
  parents (deref heap x) = [] → spouse (deref heap x) = None →
  connections heap x = {[x := ""]}.
Proof.
  intros Hparents Hspouse.
  assert (connections_loop 1 heap x = ({[x := ""]}, [])) as H1.
  { rewrite first_turn. by rewrite Hparents, Hspouse. }
  unfold connections. pose proof (universe_size_pos heap x).
  replace (size (universe heap x)) with (1 + (size (universe heap x) - 1))
    by lia.
  rewrite connections_loop_stable; by rewrite H1.
Qed.

(** X10: somebody with no parents and no spouse is connected to itself
    only, and is related exactly to those whose connections hold it. *)
Theorem relation_to_from_leaf relationships heap x b :
  parents (deref heap x) = [] → spouse (deref heap x) = None →
  connections heap x = {[x := ""]} ∧
  (relation_to relationships heap x (Some b) = Return None ↔
   connections heap b !! x = None).
Proof.
  intros Hparents Hspouse.
  pose proof (connections_leaf heap x Hparents Hspouse) as Hleaf.
  split; [done|]. rewrite relation_to_None_iff. unfold shared.
  rewrite Hleaf, dom_singleton_L, <-not_elem_of_dom. set_solver.
Qed.

Lemma relation_to_from_leaf_witness :
  connections (people (family_of scenario3)) "G" = {[ "G" := "" ]} ∧
  (relation_to sample_table (people (family_of scenario3)) "G" (Some "C")
     = Return None ↔
   connections (people (family_of scenario3)) "C" !! "G" = None).
Proof.
  apply (relation_to_from_leaf sample_table (people (family_of scenario3))
           "G" "C").
  - vm_compute. reflexivity.
  - vm_compute. reflexivity.
Defined.

(** * Further results on [relation_to] *)

Lemma relation_to_cases relationships heap a b :
  match relation_to relationships heap a (Some b) with
  | Return None => shared heap a b = ∅
  | Return (Some term) =>
      ∃ key, lcr_key heap a b key ∧
        ((relationships !! key = None ∧ term = "distant relative") ∨
         (∃ entry, relationships !! key = Some entry ∧
                   entry !! gender (deref heap a) = Some term))
  | Raise e =>
      ∃ key entry, lcr_key heap a b key ∧
        relationships !! key = Some entry ∧
        entry !! gender (deref heap a) = None ∧
        e = KeyError (gender (deref heap a))
  end.
Proof.
  destruct (decide (shared heap a b = ∅)) as [Hempty|Hne].
  { by rewrite (proj2 (relation_to_None_iff relationships heap a b) Hempty). }
  destruct (lcr_path_of_spec heap a b Hne) as (key & _ & Hkey).
  rewrite (relation_to_lcr_key _ _ _ _ _ Hkey).
  destruct (relationships !! key) as [entry|] eqn:Hentry.
  - unfold subscript. destruct (entry !! gender (deref heap a)) eqn:Hterm; simpl.
    + exists key. split; [done|]. right. eauto.
    + exists key, entry. done.
  - exists key. split; [done|]. by left.
Qed.

(** X11: what [relation_to] can answer for two persons: [None] when nobody
    is shared; otherwise, under the least combined key, the table's term
    for the gender of [self], "distant relative" when the table has no such
    key, and a [KeyError] for the gender when the entry has no term for it.
    No other exception is raised. *)
Theorem relation_to_outcomes relationships heap a b :
  match relation_to relationships heap a (Some b) with
  | Return None => shared heap a b = ∅
  | Return (Some term) =>
      ∃ key, lcr_key heap a b key ∧
        ((relationships !! key = None ∧ term = "distant relative") ∨
         (∃ entry, relationships !! key = Some entry ∧
                   entry !! gender (deref heap a) = Some term))
  | Raise e =>
      ∃ key entry, lcr_key heap a b key ∧
        relationships !! key = Some entry ∧
        entry !! gender (deref heap a) = None ∧
        e = KeyError (gender (deref heap a))
  end.
Proof. apply relation_to_cases. Qed.

(** X12: being not related does not depend on the direction of the
    question, nor on the table: [relation_to] answers [None] from [a] to
    [b] exactly when it does from [b] to [a]. *)
Theorem relation_to_not_related_sym relationships relationships' heap a b :
  relation_to relationships heap a (Some b) = Return None ↔
  relation_to relationships' heap b (Some a) = Return None.
Proof.
  rewrite !relation_to_None_iff. unfold shared. set_solver.
Qed.

Lemma connections_empty_code heap x y :
  connections heap x !! y = Some "" → y = x.
Proof.
  intros Hy. apply connections_path in Hy as (_ & _ & Hfrom).
  destruct Hfrom as [[? _]|(u & pre & _ & [[Heq _]|[Heq _]])]; [done|..];
    apply (f_equal String.length) in Heq; rewrite length_append in Heq;
    simpl in Heq; lia.
Qed.

Lemma colon_lt_step c rest key :
  c = "P"%char ∨ c = "S"%char → String.le (String ":" key) (String c rest).
Proof. by intros [->| ->]. Qed.

(** X13: when [self] is in the mapping that [connections] returns for
    [relation] (an ancestor of [relation], for one), [relation_to] selects
    [self] and nobody else, with the key ":" followed by the path code from
    [relation] to [self]. *)
Theorem relation_to_descendant heap a b code :
  connections heap b !! a = Some code →
  lcr_path_of heap a b = Return (":" +:+ code) ∧
  ∀ person, selects heap a b person ↔ person = a.
Proof.
  intros Hb. pose proof (connections_self heap a) as Ha.
  assert (candidate heap a b (":" +:+ code) a) as Hcand by by exists "", code.
  assert (lcr_key heap a b (":" +:+ code)) as Hkey.
  { split; [by exists a|]. intros key' person (p1 & p2 & H1 & H2 & ->).
    destruct p1 as [|c p1].
    - apply connections_empty_code in H1 as ->. by simplify_eq.
    - apply connections_path in H1 as [H1 _].
      apply path_to_steps_only in H1 as [Hc _].
      by apply colon_lt_step. }
  pose proof (lcr_key_path _ _ _ _ Hkey) as Hpath.
  split; [done|]. intros person. split.
  - intros (key & Hkey' & p1 & p2 & H1 & H2 & ->).
    rewrite Hpath in Hkey'. injection Hkey' as Heq.
    destruct p1 as [|c p1]; [by apply connections_empty_code in H1|].
    apply connections_path in H1 as [H1 _].
    apply path_to_steps_only in H1 as [Hc _].
    rewrite app_cons in Heq. injection Heq as <- _.
    by destruct Hc.
  - intros ->. by exists (":" +:+ code).
Qed.

Lemma relation_to_descendant_witness :
  lcr_path_of (people (family_of scenario3)) "G" "C" = Return (":" +:+ "PP") ∧
  ∀ person, selects (people (family_of scenario3)) "G" "C" person ↔
            person = "G".
Proof.
  apply (relation_to_descendant (people (family_of scenario3)) "G" "C" "PP").
  vm_compute. reflexivity.
Defined.

(** X14: the individual that [relation_to] selects has the least path code
    from [self] among all shared individuals, in the plain order of
    strings; the path code from [relation] only decides between individuals
    with the same path code from [self]. *)
Theorem selected_has_least_path heap a b person path1 other path1' :
  selects heap a b person →
  connections heap a !! person = Some path1 →
  other ∈ shared heap a b →
  connections heap a !! other = Some path1' →
  String.le path1 path1'.
Proof.
  intros (key & Hkey%lcr_path_lcr_key & Hcand).
  by apply (selected_least_first_path heap a b key person).
Qed.

Lemma selected_has_least_path_witness : String.le "P" "PP".
Proof.
  apply (selected_has_least_path (people (family_of two_lines)) "A" "B"
           "C1" "P" "C2" "PP").
  - exists "P:PPP". split; [vm_compute; reflexivity|].
    exists "P", "PPP". split_and!; vm_compute; reflexivity.
  - vm_compute. reflexivity.
  - apply (proj1 (bool_decide_eq_true _)). vm_compute. reflexivity.
  - vm_compute. reflexivity.
Defined.

(** X15: the key that [relation_to] selects does not depend on the order in
    which the set of shared individuals is gone through. *)
Theorem lcr_path_any_order heap a b (order : list string) :
  order ≡ₚ elements (shared heap a b) →
  py_min (combined_path (connections heap a) (connections heap b) <$> order)
    = lcr_path_of heap a b.
Proof.
  intros Hperm. unfold lcr_path_of. apply py_min_perm. by rewrite Hperm.
Qed.

Lemma lcr_path_any_order_witness :
  py_min (combined_path (connections (people (family_of scenario1)) "Alice")
                        (connections (people (family_of scenario1)) "Carol")
            <$> reverse (elements (shared (people (family_of scenario1))
                                          "Alice" "Carol")))
    = lcr_path_of (people (family_of scenario1)) "Alice" "Carol".
Proof.
  apply (lcr_path_any_order (people (family_of scenario1)) "Alice" "Carol").
  apply reverse_Permutation.
Defined.

(** * Further results on [Family.relation] and [main] *)

Lemma Family_relation_unknown relationships family name1 name2 :
  people family !! name1 = None ∨ people family !! name2 = None →
  Family_relation relationships family name1 name2 = Raise AttributeError.
Proof.
  intros Hnone. unfold Family_relation, people_get.
  destruct (people family !! name1) as [person1|]; simpl; [|done].
  destruct Hnone as [?|Hnone]; [done|]. by rewrite Hnone.
Qed.

(** X16: [Family.relation] raises [AttributeError] exactly when one of the
    two names is not a key of [people]. *)
Theorem Family_relation_AttributeError_iff relationships family name1 name2 :
  Family_relation relationships family name1 name2 = Raise AttributeError ↔
  people family !! name1 = None ∨ people family !! name2 = None.
Proof.
  split.
  - unfold Family_relation, people_get.
    destruct (people family !! name1) as [p1|]; [|by left].
    destruct (people family !! name2) as [p2|]; [|by right]. simpl.
    intros Hraise.
    pose proof (relation_to_cases relationships (people family) name1 name2)
      as Hout.
    rewrite Hraise in Hout. by destruct Hout as (? & ? & _ & _ & _ & ?).
  - apply Family_relation_unknown.
Qed.

Lemma main_unfold relationships familydata family name1 name2 :
  Family_init familydata = Return family →
  is_Some (people family !! name1) → is_Some (people family !! name2) →
  main relationships familydata name1 name2 =
    match relation_to relationships (people family) name1 (Some name2) with
    | Return None => Return (name1 +:+ " is not related to " +:+ name2)
    | Return (Some relationship) =>
        Return (name1 +:+ " is " +:+ name2 +:+ "'s " +:+ relationship)
    | Raise e => Raise e
    end.
Proof.
  intros Hinit [p1 Hp1] [p2 Hp2]. unfold main. rewrite Hinit. simpl.
  unfold Family_relation, people_get. rewrite Hp1, Hp2. simpl.
  by destruct (relation_to _ _ _ _) as [[?|]|].
Qed.

(** X17: when every name of the description is an individual, both query
    names are individuals, and every entry of the table has a term for each
    gender listed for the first name, [main] prints one line: the first name
    is not related to the second, or it is the second's kinship term. *)
Theorem main_prints relationships familydata name1 name2 :
  all_known familydata →
  known familydata name1 → known familydata name2 →
  (∀ g key entry, (name1, g) ∈ individuals familydata →
     relationships !! key = Some entry → is_Some (entry !! g)) →
  ∃ line, main relationships familydata name1 name2 = Return line ∧
          printed_line name1 name2 line.
Proof.
  intros [family Hinit]%all_known_Family_init H1 H2 Hgender.
  pose proof (Family_init_spec familydata) as Hspec. rewrite Hinit in Hspec.
  destruct Hspec as [[Hdom _] _].
  pose proof (proj2 (Hdom name1) H1) as Hp1. destruct (Hp1) as [p1 Hp1'].
  rewrite (main_unfold _ _ _ _ _ Hinit) by by apply Hdom.
  pose proof (relation_to_cases relationships (people family) name1 name2)
    as Hout.
  destruct (relation_to _ _ _ _) as [[term|]|e].
  - eexists. split; [done|]. right. by exists term.
  - eexists. split; [done|]. by left.
  - exfalso. destruct Hout as (key & entry & _ & Hentry & Hnone & _).
    destruct (Family_init_content _ _ _ _ Hinit Hp1') as (g & Hg & ->).
    unfold deref in Hnone. rewrite Hp1' in Hnone. simpl in Hnone.
    destruct (Hgender g key entry Hg Hentry) as [? ?]. congruence.
Qed.

Lemma main_prints_witness :
  ∃ line, main sample_table scenario1 "Alice" "Carol" = Return line ∧
          printed_line "Alice" "Carol" line.
Proof.
  apply (main_prints sample_table scenario1 "Alice" "Carol").
  - split; repeat constructor; vm_compute; set_solver.
  - vm_compute. set_solver.
  - vm_compute. set_solver.
  - intros g key entry Hg Hentry.
    assert (g = "F") as ->.
    { vm_compute in Hg. set_solver. }
    apply elem_of_map_to_list in Hentry. vm_compute in Hentry.
    repeat (apply elem_of_cons in Hentry as [Hentry|Hentry];
            [injection Hentry as -> ->; by eexists|]).
    by apply elem_of_nil in Hentry.
Defined.

Example main_scenario1 :
  main sample_table scenario1 "Alice" "Carol"
    = Return "Alice is Carol's mother".
Proof. vm_compute. reflexivity. Qed.

Example main_scenario2 :
  main sample_table scenario2 "A" "B" = Return "A is not related to B".
Proof. vm_compute. reflexivity. Qed.

(** X18: [main] prints nothing and raises when the description names
    somebody who is not an individual ([KeyError] for such a name), or, with
    a description that builds, when a query name is not an individual
    ([AttributeError]). *)
Theorem main_raises relationships familydata name1 name2 :
  (¬ all_known familydata →
   ∃ name, ¬ known familydata name ∧
           main relationships familydata name1 name2 = Raise (KeyError name)) ∧
  (all_known familydata →
   ¬ known familydata name1 ∨ ¬ known familydata name2 →
   main relationships familydata name1 name2 = Raise AttributeError).
Proof.
  split.
  - intros Hnot. pose proof (Family_init_spec familydata) as Hspec.
    unfold main. destruct (Family_init familydata) as [family|e] eqn:Hinit.
    + destruct Hnot. by eapply Family_init_all_known.
    + destruct Hspec as (name & -> & ?). eauto.
  - intros [family Hinit]%all_known_Family_init Hunknown.
    pose proof (Family_init_spec familydata) as Hspec. rewrite Hinit in Hspec.
    destruct Hspec as [[Hdom _] _].
    unfold main. rewrite Hinit. simpl.
    rewrite Family_relation_unknown; [done|].
    destruct Hunknown as [Hno|Hno]; [left|right];
      apply eq_None_not_Some; by rewrite Hdom.
Qed.

Lemma main_raises_witness :
  (∃ name, ¬ known unknown_parent name ∧
           main sample_table unknown_parent "A" "B" = Raise (KeyError name)) ∧
  main sample_table scenario2 "A" "Q" = Raise AttributeError.
Proof.
  split.
  - apply (main_raises sample_table unknown_parent "A" "B").
    intros [Hparents _]. apply Forall_cons in Hparents as [[_ Hp] _].
    apply Forall_cons in Hp as [Hp _]. vm_compute in Hp. set_solver.
  - apply (main_raises sample_table scenario2 "A" "Q").
    + split; constructor.
    + right. vm_compute. set_solver.
Defined.
